(** * Change-aware context pipeline of ai-cr: a shallow embedding

    The development models, from [src/utils/parallelProcessor.ts]
    (class [SmartContextExpander]) and from the cache module
    ([SmartCacheManager]):
    - the change analyzer [analyzeFileChanges] and its helpers,
    - the strategy selector [selectOptimalStrategy],
    - the diff-hunk parser [parseDiffChunks],
    - the affected-block extractor [extractAffectedBlocks] and
      [findContainingBlock],
    - the cache operations [get], [set], [makeSpace] and the eviction
      comparator [compareEntriesForEviction],
    - the analysis cache of [analyzeFileChanges] and, from
      [DependencyAnalyzer], the dependency traversals, [getRelatedFiles]
      and [buildDependencyRelationships].

    JavaScript numbers that hold line counts, sizes and timestamps are
    modelled as [Z]; the change ratio (a floating-point quotient in the
    source) is modelled as an exact rational [Q]. *)

From Stdlib Require Import ZArith QArith Qround String Ascii List Bool Lia Lqa.
From Stdlib Require Import Sorting.Permutation Sorting.Sorted.
Import ListNotations.
Open Scope string_scope.
Open Scope Z_scope.

(* ------------------------------------------------------------------ *)
(** ** String helpers (JavaScript string primitives) *)

Module JS.

(** [s.startsWith(p)] *)
Fixpoint startsWith (s p : string) : bool :=
  match p, s with
  | EmptyString, _ => true
  | String c p', String d s' => Ascii.eqb c d && startsWith s' p'
  | String _ _, EmptyString => false
  end.

(** [s.includes(p)] *)
Fixpoint includes (s p : string) : bool :=
  startsWith s p ||
  match s with
  | EmptyString => false
  | String _ s' => includes s' p
  end.

(** [s.endsWith(p)] *)
Definition endsWith (s p : string) : bool :=
  (String.length p <=? String.length s)%nat &&
  String.eqb (substring (String.length s - String.length p) (String.length p) s) p.

(** [s.toLowerCase()] on ASCII letters. *)
Definition lowerAscii (c : ascii) : ascii :=
  let n := nat_of_ascii c in
  if ((65 <=? n) && (n <=? 90))%nat then ascii_of_nat (n + 32) else c.

Fixpoint toLowerCase (s : string) : string :=
  match s with
  | EmptyString => EmptyString
  | String c s' => String (lowerAscii c) (toLowerCase s')
  end.

Definition nl : ascii := Ascii.ascii_of_nat 10.

(** [s.split('\n')]: always at least one piece. *)
Fixpoint split_nl_aux (s : string) (cur : string) : list string :=
  match s with
  | EmptyString => [cur]
  | String c s' =>
      if Ascii.eqb c nl then cur :: split_nl_aux s' EmptyString
      else split_nl_aux s' (cur ++ String c EmptyString)
  end.

Definition split_nl (s : string) : list string := split_nl_aux s EmptyString.

(** [lines.join('\n')] *)
Definition join_nl (ls : list string) : string := String.concat (String nl EmptyString) ls.

(** JavaScript [\s] restricted to the ASCII whitespace characters. *)
Definition is_space (c : ascii) : bool :=
  let n := nat_of_ascii c in
  ((n =? 32) || (n =? 9) || (n =? 10) || (n =? 11) || (n =? 12) || (n =? 13))%nat.

(** [s.trim()]: drops the leading and trailing whitespace, the ASCII
    whitespace and line terminators here as for [\s]. *)
Fixpoint dropSpaces (l : list ascii) : list ascii :=
  match l with
  | c :: l' => if is_space c then dropSpaces l' else l
  | [] => []
  end.

Definition trim (s : string) : string :=
  string_of_list_ascii (rev (dropSpaces (rev (dropSpaces (list_ascii_of_string s))))).

(** [\d] *)
Definition is_digit (c : ascii) : bool :=
  let n := nat_of_ascii c in ((48 <=? n) && (n <=? 57))%nat.

(** [\w] *)
Definition is_word (c : ascii) : bool :=
  let n := nat_of_ascii c in
  (is_digit c || ((65 <=? n) && (n <=? 90)) || ((97 <=? n) && (n <=? 122))
   || (n =? 95))%nat.

End JS.

(* ------------------------------------------------------------------ *)
(** ** Data model: [ContextStrategy], [FileType], [DiffChunk],
       [ChangeAnalysis] *)

Inductive ContextStrategy :=
| DIFF_ONLY | CONTEXT_WINDOW | AFFECTED_BLOCKS | SMART_SUMMARY | FULL_FILE.

Inductive FileType := CORE | TEST | CONFIG | DOCUMENTATION | BUILD.

Definition FileType_eqb (a b : FileType) : bool :=
  match a, b with
  | CORE, CORE | TEST, TEST | CONFIG, CONFIG
  | DOCUMENTATION, DOCUMENTATION | BUILD, BUILD => true
  | _, _ => false
  end.

Inductive ChunkType := addition | deletion | modification.

Record DiffChunk := mkChunk {
  startLine : Z;
  endLine : Z;
  size : Z;
  type : ChunkType
}.

Record DiffStats := mkDiffStats {
  additions_ds : Z;
  deletions_ds : Z;
  chunks_ds : list DiffChunk
}.

Record ChangeAnalysis := mkAnalysis {
  filePath : string;
  fileSize : Z;
  changeRatio : Q;
  chunkCount : Z;
  maxChunkSize : Z;
  totalChangedLines : Z;
  additions : Z;
  deletions : Z;
  isNewFile : bool;
  isDeleted : bool;
  fileType : FileType;
  hasApiChanges : bool;
  strategy : ContextStrategy;
  estimatedTokens : Z
}.

(* ------------------------------------------------------------------ *)
(** ** Strategy selector: [selectOptimalStrategy] *)

Definition selectOptimalStrategy (a : ChangeAnalysis) : ContextStrategy :=
  if isDeleted a then DIFF_ONLY
  else if isNewFile a && (fileSize a <? 100) then FULL_FILE
  else if isNewFile a then SMART_SUMMARY
  else if fileSize a <? 20 then FULL_FILE
  else if FileType_eqb (fileType a) CONFIG && (fileSize a <? 50) then FULL_FILE
  else if Qle_bool (changeRatio a) (1 # 10) then
    (if chunkCount a <=? 2 then DIFF_ONLY else CONTEXT_WINDOW)
  else if Qle_bool (changeRatio a) (3 # 10) then
    (if hasApiChanges a then AFFECTED_BLOCKS else CONTEXT_WINDOW)
  else if Qle_bool (changeRatio a) (7 # 10) then
    (if fileSize a >? 100 then SMART_SUMMARY else AFFECTED_BLOCKS)
  else if fileSize a <? 150 then FULL_FILE else SMART_SUMMARY.

(** [estimateTokens]; [maxTokensPerFile] comes from the configuration. *)
Definition estimateTokens (maxTokensPerFile : Z) (a : ChangeAnalysis) : Z :=
  match strategy a with
  | DIFF_ONLY => 500
  | CONTEXT_WINDOW => 1000
  | AFFECTED_BLOCKS => 2000
  | SMART_SUMMARY => 3000
  | FULL_FILE => Z.min (fileSize a * 8) maxTokensPerFile
  end.

(* ------------------------------------------------------------------ *)
(** ** Regular-expression tests used by the analyzer and the extractor

    Each regular expression of the source is written out as a
    deterministic matcher: in every pattern used below, a greedy
    repetition is followed by a character outside its class, so greedy
    matching without backtracking finds the same matches. *)

Module Rx.

(** Longest prefix of characters satisfying [p], and the rest. *)
Fixpoint span (p : ascii -> bool) (s : string) : string * string :=
  match s with
  | String c s' =>
      if p c then let (a, b) := span p s' in (String c a, b) else (EmptyString, s)
  | EmptyString => (EmptyString, EmptyString)
  end.

(** [p*] *)
Definition star (p : ascii -> bool) (s : string) : option string :=
  Some (snd (span p s)).

(** [p+] *)
Definition plus (p : ascii -> bool) (s : string) : option string :=
  match span p s with
  | (EmptyString, _) => None
  | (_, rest) => Some rest
  end.

(** A literal word. *)
Definition lit (w s : string) : option string :=
  if JS.startsWith s w then Some (substring (String.length w) (String.length s) s)
  else None.

(** An optional group [(g)?] followed by [k]. *)
Definition opt (g k : string -> option string) (s : string) : option string :=
  match option_map k (g s) with
  | Some (Some r) => Some r
  | _ => k s
  end.

Definition bind (o : option string) (k : string -> option string) : option string :=
  match o with Some s => k s | None => None end.

Definition alt (ks : list (string -> option string)) (s : string) : option string :=
  fold_right (fun k acc => match k s with Some r => Some r | None => acc end) None ks.

Definition matches (o : option string) : bool :=
  match o with Some _ => true | None => false end.

(** [.*w] where only the existence of a match matters: [.] is any
    character but a line terminator ([\n], [\r]), so a match exists
    exactly when [w] occurs after a prefix free of line terminators. *)
Fixpoint dotStarLit (w s : string) : option string :=
  if JS.startsWith s w then Some (substring (String.length w) (String.length s) s)
  else match s with
       | EmptyString => None
       | String c s' =>
           if ((nat_of_ascii c =? 10) || (nat_of_ascii c =? 13))%nat then None
           else dotStarLit w s'
       end.

(** Unanchored [pattern.test(s)]: a match starting at some position. *)
Fixpoint test_anywhere (m : string -> bool) (s : string) : bool :=
  m s || match s with EmptyString => false | String _ s' => test_anywhere m s' end.

End Rx.

(* ------------------------------------------------------------------ *)
(** ** Change analyzer: [detectFileType], [detectApiChanges],
       [analyzeFileChanges] *)

Definition detectFileType (path : string) : FileType :=
  let ext := JS.toLowerCase path in
  if JS.includes ext "test" || JS.includes ext "spec" || JS.includes ext "__tests__"
  then TEST
  else if JS.endsWith ext ".md" || JS.endsWith ext ".txt" || JS.endsWith ext ".doc"
  then DOCUMENTATION
  else if JS.includes ext "config" || JS.endsWith ext ".json" || JS.endsWith ext ".yml"
          || JS.endsWith ext ".yaml" || JS.endsWith ext ".env"
  then CONFIG
  else if JS.includes ext "build" || JS.includes ext "webpack" || JS.includes ext "rollup"
          || JS.endsWith ext ".sh" || JS.endsWith ext ".bat"
  then BUILD
  else CORE.

(** [/export\s+(function|class|interface|type|const)/] *)
Definition api_pat1 (s : string) : bool :=
  Rx.matches (Rx.bind (Rx.bind (Rx.lit "export" s) (Rx.plus JS.is_space))
    (Rx.alt [Rx.lit "function"; Rx.lit "class"; Rx.lit "interface";
             Rx.lit "type"; Rx.lit "const"])).

(** [/public\s+(function|class)/] *)
Definition api_pat2 (s : string) : bool :=
  Rx.matches (Rx.bind (Rx.bind (Rx.lit "public" s) (Rx.plus JS.is_space))
    (Rx.alt [Rx.lit "function"; Rx.lit "class"])).

(** [/interface\s+\w+/] *)
Definition api_pat3 (s : string) : bool :=
  Rx.matches (Rx.bind (Rx.bind (Rx.lit "interface" s) (Rx.plus JS.is_space))
    (Rx.plus JS.is_word)).

(** [/type\s+\w+\s*=/] *)
Definition api_pat4 (s : string) : bool :=
  Rx.matches (Rx.bind (Rx.bind (Rx.bind (Rx.bind (Rx.lit "type" s)
    (Rx.plus JS.is_space)) (Rx.plus JS.is_word)) (Rx.star JS.is_space)) (Rx.lit "=")).

Definition detectApiChanges (content : string) : bool :=
  existsb (fun m => Rx.test_anywhere m content) [api_pat1; api_pat2; api_pat3; api_pat4].

(** [Math.max(...chunks.map(c => c.size))], or 0 for no chunks. *)
Definition maxChunk (cs : list DiffChunk) : Z :=
  match cs with
  | [] => 0
  | c :: cs' => fold_left (fun m c' => Z.max m (size c')) cs' (size c)
  end.

(** [actualChangedLines] and [changeRatio] of [analyzeFileChanges]. *)
Definition changedAndRatio (fsize adds dels : Z) (newf deleted : bool) : Z * Q :=
  if newf then (fsize, 1%Q)
  else if deleted then (dels, 1%Q)
  else
    let changed := adds + dels in
    let baseSize := fsize + Z.max 0 (dels - adds) in
    (changed, if baseSize >? 0 then (inject_Z changed / inject_Z baseSize)%Q else 0%Q).

(** The body of [analyzeFileChanges] after its cache lookup: the file
    content, the path and the result of [getDiffStats] are its inputs.
    A cache hit returns an analysis this same body produced earlier. *)
Definition analyzeFileChanges (maxTokensPerFile : Z) (path content : string)
    (ds : DiffStats) : ChangeAnalysis :=
  let fsize := Z.of_nat (length (JS.split_nl content)) in
  let ftype := detectFileType path in
  let adds := additions_ds ds in
  let dels := deletions_ds ds in
  let newf := (dels =? 0) && (adds =? fsize) in
  let deleted := (adds =? 0) && (dels >? 0) in
  let cr := changedAndRatio fsize adds dels newf deleted in
  let changed := fst cr in
  let ratio := snd cr in
  let a0 := {| filePath := path; fileSize := fsize; changeRatio := ratio;
               chunkCount := Z.of_nat (length (chunks_ds ds));
               maxChunkSize := maxChunk (chunks_ds ds);
               totalChangedLines := changed; additions := adds; deletions := dels;
               isNewFile := newf; isDeleted := deleted; fileType := ftype;
               hasApiChanges := detectApiChanges content;
               strategy := FULL_FILE; estimatedTokens := 0 |} in
  let a1 := {| filePath := path; fileSize := fsize; changeRatio := ratio;
               chunkCount := chunkCount a0; maxChunkSize := maxChunkSize a0;
               totalChangedLines := changed; additions := adds; deletions := dels;
               isNewFile := newf; isDeleted := deleted; fileType := ftype;
               hasApiChanges := hasApiChanges a0;
               strategy := selectOptimalStrategy a0; estimatedTokens := 0 |} in
  {| filePath := path; fileSize := fsize; changeRatio := ratio;
     chunkCount := chunkCount a0; maxChunkSize := maxChunkSize a0;
     totalChangedLines := changed; additions := adds; deletions := dels;
     isNewFile := newf; isDeleted := deleted; fileType := ftype;
     hasApiChanges := hasApiChanges a0;
     strategy := strategy a1; estimatedTokens := estimateTokens maxTokensPerFile a1 |}.




(* ------------------------------------------------------------------ *)
(** ** Diff parser: [parseDiffChunks]

    The diff text is the output of [git diff HEAD~1 -- path], the input
    of the model. *)

(** [!s.trim()] *)
Definition is_blank (s : string) : bool := forallb JS.is_space (list_ascii_of_string s).

(** [parseInt] of a non-empty run of decimal digits. *)
Definition parseDigits (s : string) : Z :=
  fold_left (fun acc c => acc * 10 + (Z.of_nat (nat_of_ascii c) - 48))
    (list_ascii_of_string s) 0.

(** [/^@@\s+-(\d+),?\d*\s+\+(\d+),?\d*\s+@@/]: [Some] of the second group. *)
Definition hunkHeader (line : string) : option Z :=
  match Rx.bind (Rx.bind (Rx.bind (Rx.bind (Rx.bind (Rx.bind (Rx.lit "@@" line)
          (Rx.plus JS.is_space)) (Rx.lit "-")) (Rx.plus JS.is_digit))
          (Rx.opt (Rx.lit ",") (Rx.star JS.is_digit)))
          (Rx.plus JS.is_space)) (Rx.lit "+") with
  | None => None
  | Some s =>
      match Rx.span JS.is_digit s with
      | (EmptyString, _) => None
      | (ds, rest) =>
          if Rx.matches (Rx.bind (Rx.bind (Rx.opt (Rx.lit ",") (Rx.star JS.is_digit) rest)
                (Rx.plus JS.is_space)) (Rx.lit "@@"))
          then Some (parseDigits ds) else None
      end
  end.

(** The loop state: [currentChunk] (start line and type),
    [currentLineNum] and the chunks pushed so far. *)
Record ParseState := mkPS {
  currentChunk : option (Z * ChunkType);
  currentLineNum : Z;
  chunks_acc : list DiffChunk
}.

Definition parseLine (st : ParseState) (line : string) : ParseState :=
  match hunkHeader line with
  | Some c =>
      let acc := match currentChunk st with
                 | Some (s, ty) =>
                     app (chunks_acc st) [mkChunk s (currentLineNum st - 1) (currentLineNum st - s) ty]
                 | None => chunks_acc st
                 end in
      mkPS (Some (c, modification)) c acc
  | None =>
      if JS.startsWith line "diff " || JS.startsWith line "index "
         || JS.startsWith line "---" || JS.startsWith line "+++"
      then st
      else
        match currentChunk st with
        | Some (s, ty) =>
            if JS.startsWith line "+" && negb (JS.startsWith line "+++") then
              mkPS (Some (s, addition)) (currentLineNum st + 1) (chunks_acc st)
            else if JS.startsWith line "-" && negb (JS.startsWith line "---") then
              mkPS (Some (s, match ty with addition => modification | _ => deletion end))
                   (currentLineNum st) (chunks_acc st)
            else if JS.startsWith line " " || String.eqb line "" then
              mkPS (currentChunk st) (currentLineNum st + 1) (chunks_acc st)
            else st
        | None => st
        end
  end.

Definition finishChunks (st : ParseState) : list DiffChunk :=
  match currentChunk st with
  | Some (s, ty) =>
      app (chunks_acc st) [mkChunk s (currentLineNum st) (currentLineNum st - s + 1) ty]
  | None => chunks_acc st
  end.

Definition parseDiffChunks (diffOutput : string) : list DiffChunk :=
  if is_blank diffOutput then []
  else finishChunks (fold_left parseLine (JS.split_nl diffOutput) (mkPS None 0 [])).

(* ------------------------------------------------------------------ *)
(** ** Affected-block extraction: [findContainingBlock],
       [extractAffectedBlocks] *)

(** [/^\s*(export\s+)?<rest>/] for a continuation [rest]. *)
Definition declPrefix (rest : string -> option string) (s : string) : option string :=
  Rx.bind (Rx.star JS.is_space s)
    (Rx.opt (fun s => Rx.bind (Rx.lit "export" s) (Rx.plus JS.is_space)) rest).

Definition kwSpace (kw : string) (s : string) : option string :=
  Rx.bind (Rx.lit kw s) (Rx.plus JS.is_space).

(** The five [blockPatterns] of [findContainingBlock]. *)
Definition blockPatterns : list (string -> bool) :=
  [ (fun s => Rx.matches (declPrefix
        (Rx.opt (kwSpace "async") (kwSpace "function")) s));
    (fun s => Rx.matches (declPrefix (kwSpace "class") s));
    (fun s => Rx.matches (declPrefix (kwSpace "interface") s));
    (fun s => Rx.matches (declPrefix (kwSpace "type") s));
    (fun s => Rx.matches (declPrefix (fun s =>
        Rx.bind (Rx.bind (Rx.bind (Rx.bind (kwSpace "const" s) (Rx.plus JS.is_word))
          (Rx.star JS.is_space)) (Rx.lit "="))
          (fun s => Rx.bind (Rx.star JS.is_space s)
             (Rx.opt (fun s => Rx.bind (Rx.lit "async" s) (Rx.star JS.is_space))
                     (Rx.lit "(")))) s)) ].

(** [line && blockPatterns.some(p => p.test(line))]; an index out of
    range reads [undefined], which is falsy. *)
Definition isBlockStart (lines : list string) (i : Z) : bool :=
  match nth_error lines (Z.to_nat i) with
  | Some line => negb (String.eqb line "") && existsb (fun p => p line) blockPatterns
  | None => false
  end.

(** The upward [while (blockStart >= 0)] loop; [fuel] bounds the
    iterations and is never exhausted from [findBlockStart]. *)
Fixpoint scanUp (lines : list string) (fuel : nat) (i : Z) : Z :=
  match fuel with
  | O => i
  | S f => if i <? 0 then i else if isBlockStart lines i then i else scanUp lines f (i - 1)
  end.

Definition findBlockStart (lines : list string) (startLine : Z) : Z :=
  let b := scanUp lines (S (Z.to_nat startLine)) (startLine - 1) in
  if b <? 0 then Z.max 0 (startLine - 10) else b.

(** The inner [for (const char of line)] loop: new brace count,
    [foundOpenBrace], and whether it stopped at the matching ['}']. *)
Fixpoint braceChars (cs : list ascii) (cnt : Z) (found : bool) : Z * bool * bool :=
  match cs with
  | [] => (cnt, found, false)
  | c :: cs' =>
      if Ascii.eqb c "{"%char then braceChars cs' (cnt + 1) true
      else if Ascii.eqb c "}"%char then
        if found && (cnt - 1 =? 0) then (cnt - 1, found, true)
        else braceChars cs' (cnt - 1) found
      else braceChars cs' cnt found
  end.

(** The outer [for (let i = blockStart; i < lines.length; i++)] loop
    over the indexed lines from [blockStart]. *)
Fixpoint braceScan (ls : list (Z * string)) (cnt : Z) (found : bool) (blockEnd : Z) : Z :=
  match ls with
  | [] => blockEnd
  | (i, line) :: ls' =>
      if String.eqb line "" then braceScan ls' cnt found blockEnd
      else
        let '(cnt', found', closed) := braceChars (list_ascii_of_string line) cnt found in
        let blockEnd' := if closed then i else blockEnd in
        if found' && (cnt' =? 0) then blockEnd' else braceScan ls' cnt' found' blockEnd'
  end.

Fixpoint indexFrom {A} (i : Z) (l : list A) : list (Z * A) :=
  match l with [] => [] | x :: l' => (i, x) :: indexFrom (i + 1) l' end.

(** [Array.prototype.slice(b, e)], negative bounds counting from the end. *)
Definition js_slice {A} (l : list A) (b e : Z) : list A :=
  let len := Z.of_nat (length l) in
  let norm x := if x <? 0 then Z.max (len + x) 0 else Z.min x len in
  firstn (Z.to_nat (norm e - norm b)) (skipn (Z.to_nat (norm b)) l).

(** [findContainingBlock]: the block's lines with their 1-based numbers.
    The source renders them as ["%4d: line"] rows joined by newlines;
    that string is empty exactly when this list is. *)
Definition findContainingBlock (lines : list string) (startLine endLine : Z)
    : list (Z * string) :=
  let blockStart := findBlockStart lines startLine in
  let blockEnd := braceScan (skipn (Z.to_nat blockStart) (indexFrom 0 lines)) 0 false
                            (endLine - 1) in
  indexFrom (blockStart + 1) (js_slice lines blockStart (blockEnd + 1)).

(** What [extractAffectedBlocks] returns: the whole content (no chunks),
    the result of [extractContextWindow(filePath, content)] (no block
    found), or the rendered file header followed by the distinct blocks
    in insertion order of the [Set]. The header and the rendering are not
    modelled. The body cannot throw on a string input: [parseDiffChunks]
    catches its own errors and array reads out of range give [undefined]. *)
Inductive AffectedOutput :=
| AO_Content (content : string)
| AO_ContextWindow
| AO_Blocks (blocks : list (list (Z * string))).

Definition block_eqb (a b : list (Z * string)) : bool :=
  (length a =? length b)%nat &&
  forallb (fun p => (fst (fst p) =? fst (snd p)) && String.eqb (snd (fst p)) (snd (snd p)))
    (combine a b).

(** [affectedBlocks.add(block)] on a [Set] kept in insertion order. *)
Definition setAdd (s : list (list (Z * string))) (b : list (Z * string)) :=
  if existsb (block_eqb b) s then s else app s [b].

Definition extractAffectedBlocks (diffOutput content : string) : AffectedOutput :=
  let chunks := parseDiffChunks diffOutput in
  match chunks with
  | [] => AO_Content content
  | _ =>
      let lines := JS.split_nl content in
      let blocks := fold_left (fun acc c =>
          let blk := findContainingBlock lines (startLine c) (endLine c) in
          match blk with [] => acc | _ => setAdd acc blk end) chunks [] in
      match blocks with
      | [] => AO_ContextWindow
      | _ => AO_Blocks blocks
      end
  end.



(* ------------------------------------------------------------------ *)
(** ** Cache: [SmartCacheManager]

    [memoryCache] is a JavaScript [Map]: an association list kept in
    insertion order ([Map.set] on a present key updates it in place, on a
    new key appends; [Map.delete] removes). [Date.now()] is an input
    [now] of each operation. [stats.totalSize] and [stats.entryCount] are
    fields refreshed only by [updateStats], where the source calls it;
    event callbacks and logging are not modelled. *)

Inductive EvictionStrategy := lru | lfu | ttl_policy.

Record CacheConfig := mkCacheConfig {
  enabled : bool;
  maxSize : Z;        (* MB *)
  maxEntries : Z;
  defaultTTL : Z;     (* seconds *)
  strategy_c : EvictionStrategy
}.

Record SetOptions := mkSetOptions {
  opt_ttl : option Z;
  opt_filePath : option string;
  opt_tags : list string;
  forceUpdate : bool
}.

Section Cache.

(** The cached value type [T]; [generateHash] (md5 of the value or of
    its JSON) and [calculateSize] (UTF-8 byte length of its JSON). *)
Context {V : Type}.
Variable generateHash : V -> string.
Variable calculateSize : V -> Z.

Record CacheEntry := mkEntry {
  key : string;
  value : V;
  hash : string;
  timestamp : Z;
  lastAccessed : Z;
  accessCount : Z;
  ttl : Z;
  esize : Z;
  meta_fileSize : Z;
  meta_filePath : string;
  meta_version : string;
  meta_tags : list string
}.

Record CacheState := mkCacheState {
  memoryCache : list (string * CacheEntry);
  hits : Z;
  misses : Z;
  totalSize : Z;
  entryCount : Z
}.

Fixpoint map_get (k : string) (m : list (string * CacheEntry)) : option CacheEntry :=
  match m with
  | [] => None
  | (k', e) :: m' => if String.eqb k k' then Some e else map_get k m'
  end.

Fixpoint map_set (k : string) (e : CacheEntry) (m : list (string * CacheEntry))
    : list (string * CacheEntry) :=
  match m with
  | [] => [(k, e)]
  | (k', e') :: m' => if String.eqb k k' then (k, e) :: m' else (k', e') :: map_set k e m'
  end.

Definition map_delete (k : string) (m : list (string * CacheEntry)) :=
  filter (fun p => negb (String.eqb k (fst p))) m.

Definition sumSizes (m : list (string * CacheEntry)) : Z :=
  fold_right (fun p acc => esize (snd p) + acc) 0 m.

(** [updateStats], on the fields the model keeps. *)
Definition updateStats (st : CacheState) : CacheState :=
  mkCacheState (memoryCache st) (hits st) (misses st)
    (sumSizes (memoryCache st)) (Z.of_nat (length (memoryCache st))).

Definition withCache (st : CacheState) m : CacheState :=
  mkCacheState m (hits st) (misses st) (totalSize st) (entryCount st).

Definition recordMiss (st : CacheState) : CacheState :=
  mkCacheState (memoryCache st) (hits st) (misses st + 1) (totalSize st) (entryCount st).

Definition recordHit (st : CacheState) : CacheState :=
  mkCacheState (memoryCache st) (hits st + 1) (misses st) (totalSize st) (entryCount st).

(** [delete(key)] *)
Definition cache_delete (k : string) (st : CacheState) : CacheState :=
  match map_get k (memoryCache st) with
  | Some _ => updateStats (withCache st (map_delete k (memoryCache st)))
  | None => st
  end.

Definition isExpired (now : Z) (e : CacheEntry) : bool :=
  now >? timestamp e + ttl e * 1000.

Definition touch (now : Z) (e : CacheEntry) : CacheEntry :=
  mkEntry (key e) (value e) (hash e) (timestamp e) now (accessCount e)
    (ttl e) (esize e) (meta_fileSize e) (meta_filePath e) (meta_version e) (meta_tags e).

Definition hitEntry (now : Z) (e : CacheEntry) : CacheEntry :=
  mkEntry (key e) (value e) (hash e) (timestamp e) now (accessCount e + 1)
    (ttl e) (esize e) (meta_fileSize e) (meta_filePath e) (meta_version e) (meta_tags e).

(** [get(key)] *)
Definition cache_get (cfg : CacheConfig) (now : Z) (k : string) (st : CacheState)
    : option V * CacheState :=
  if negb (enabled cfg) then (None, st)
  else
    match map_get k (memoryCache st) with
    | None => (None, recordMiss st)
    | Some e =>
        if isExpired now e then (None, recordMiss (cache_delete k st))
        else (Some (value e), recordHit (withCache st (map_set k (hitEntry now e) (memoryCache st))))
    end.

(** [compareEntriesForEviction]: every policy compares one number. *)
Definition evictionKey (cfg : CacheConfig) (e : CacheEntry) : Z :=
  match strategy_c cfg with
  | lru => lastAccessed e
  | lfu => accessCount e
  | ttl_policy => timestamp e + ttl e
  end.

(** [Array.prototype.sort] with comparator [key a - key b]: a stable sort,
    here an insertion sort placing an element before the first element
    with a key not smaller than its own. *)
Fixpoint insertByKey (f : CacheEntry -> Z) (x : string * CacheEntry) l :=
  match l with
  | [] => [x]
  | y :: l' => if f (snd x) <=? f (snd y) then x :: l else y :: insertByKey f x l'
  end.

Definition sortByKey (f : CacheEntry -> Z) (l : list (string * CacheEntry)) :=
  fold_right (insertByKey f) [] l.

Definition maxSizeBytes (cfg : CacheConfig) : Z := maxSize cfg * 1024 * 1024.

(** [totalSize - freedSize <= maxSizeBytes * 0.8], cleared of the
    fraction. *)
Definition underTarget (cfg : CacheConfig) (total freed : Z) : bool :=
  5 * (total - freed) <=? 4 * maxSizeBytes cfg.

(** The [for (const [key, entry] of sortedEntries)] loop of [makeSpace]. *)
Fixpoint evictLoop (cfg : CacheConfig) (total : Z) (sorted : list (string * CacheEntry))
    (m : list (string * CacheEntry)) (freed : Z) : list (string * CacheEntry) :=
  match sorted with
  | [] => m
  | (k, e) :: rest =>
      if underTarget cfg total freed then m
      else evictLoop cfg total rest (map_delete k m) (freed + esize e)
  end.

(** [memoryCache.delete] of the keys of [ps], in order. *)
Definition deleteAll (m ps : list (string * CacheEntry)) :=
  fold_left (fun m p => map_delete (fst p) m) ps m.

Definition makeSpace (cfg : CacheConfig) (st : CacheState) : CacheState :=
  let sorted := sortByKey (evictionKey cfg) (memoryCache st) in
  updateStats (withCache st (evictLoop cfg (totalSize st) sorted (memoryCache st) 0)).

Definition hasSpace (cfg : CacheConfig) (st : CacheState) (required : Z) : bool :=
  (totalSize st + required <=? maxSizeBytes cfg) && (entryCount st <? maxEntries cfg).

(** [set(key, value, options)] *)
Definition cache_set (cfg : CacheConfig) (now : Z) (k : string) (v : V)
    (o : SetOptions) (st : CacheState) : bool * CacheState :=
  if negb (enabled cfg) then (false, st)
  else
    let h := generateHash v in
    let short :=
      match map_get k (memoryCache st) with
      | Some e =>
          if String.eqb (hash e) h && negb (forceUpdate o)
          then Some (true, withCache st (map_set k (touch now e) (memoryCache st)))
          else None
      | None => None
      end in
    match short with
    | Some r => r
    | None =>
        let sz := calculateSize v in
        let st1 := if hasSpace cfg st sz then st else makeSpace cfg st in
        let t := match opt_ttl o with Some t => if t =? 0 then defaultTTL cfg else t
                                    | None => defaultTTL cfg end in
        let entry := mkEntry k v h now now 1 t sz sz
                       (match opt_filePath o with Some p => p | None => "" end)
                       "1.0.0" (opt_tags o) in
        (true, updateStats (withCache st1 (map_set k entry (memoryCache st1))))
    end.

(** [cleanup()]: the [for (const [key, entry] of this.memoryCache)] loop
    deletes each expired entry (deleting the entry being visited does not
    disturb the iteration of a [Map]); the statistics are refreshed only
    when something was removed. Returns [cleanedCount]. *)
Fixpoint cleanupLoop (now : Z) (es : list (string * CacheEntry))
    (m : list (string * CacheEntry)) (cnt : Z) : list (string * CacheEntry) * Z :=
  match es with
  | [] => (m, cnt)
  | (k, e) :: es' =>
      if isExpired now e then cleanupLoop now es' (map_delete k m) (cnt + 1)
      else cleanupLoop now es' m cnt
  end.

Definition cache_cleanup (now : Z) (st : CacheState) : Z * CacheState :=
  let '(m, cnt) := cleanupLoop now (memoryCache st) (memoryCache st) 0 in
  (cnt, if cnt >? 0 then updateStats (withCache st m) else withCache st m).

(** [evictOldEntries(ratio)]: deletes the first
    [Math.floor(size * ratio)] entries of the policy order. It does not
    call [updateStats]. Returns [evictedCount]. *)
Definition evictOldEntries (cfg : CacheConfig) (ratio : Q) (st : CacheState) : Z * CacheState :=
  let targetCount := Qfloor (inject_Z (Z.of_nat (length (memoryCache st))) * ratio) in
  let entries := sortByKey (evictionKey cfg) (memoryCache st) in
  let n := Z.to_nat (Z.min targetCount (Z.of_nat (length entries))) in
  (Z.of_nat n, withCache st (deleteAll (memoryCache st) (firstn n entries))).

(** [saveToDisk()] writes [Array.from(this.memoryCache.entries())];
    [loadFromDisk()] reads them back ([JSON.stringify] and [JSON.parse]
    of the entries are taken as inverse) and keeps those not expired.
    The file's absence or a parse error leaves the cache unchanged. *)
Definition saveToDisk (st : CacheState) : list (string * CacheEntry) := memoryCache st.

Definition loadFromDisk (now : Z) (file : option (list (string * CacheEntry)))
    (st : CacheState) : CacheState :=
  match file with
  | None => st
  | Some entries =>
      updateStats (withCache st
        (fold_left (fun m p => if isExpired now (snd p) then m else map_set (fst p) (snd p) m)
           entries (memoryCache st)))
  end.

(** [optimize()]: [cleanup()], then [evictOldEntries(0.2)] when
    [stats.totalSize] is above the byte budget. The [saveToDisk()] it
    calls when [persistToDisk] is set writes the entries and leaves the
    state as it is; the logging is not modelled. *)
Definition cache_optimize (cfg : CacheConfig) (now : Z) (st : CacheState) : CacheState :=
  let st1 := snd (cache_cleanup now st) in
  if totalSize st1 >? maxSizeBytes cfg then snd (evictOldEntries cfg (1 # 5) st1) else st1.

End Cache.

(* ------------------------------------------------------------------ *)
(** ** Context window and summary helpers: [extractContextWindow],
       [selectImportantChunks] *)

(** [for (let i = start; i <= end; i++)] *)
Definition zrange (start stop : Z) : list Z :=
  map (fun k => start + Z.of_nat k) (seq 0 (Z.to_nat (stop - start + 1))).

(** [Set.prototype.add] on a set kept in insertion order. *)
Definition setAddZ (s : list Z) (i : Z) : list Z :=
  if existsb (Z.eqb i) s then s else app s [i].

(** [sort((a, b) => a - b)] *)
Fixpoint insertZ (x : Z) (l : list Z) : list Z :=
  match l with
  | [] => [x]
  | y :: l' => if x <=? y then x :: l else y :: insertZ x l'
  end.

Definition sortZ (l : list Z) : list Z := fold_right insertZ [] l.

(** One row of the rendered window: an ellipsis marker, or line [num]
    (1-based) with its text, rendered ["%4d: text"]. *)
Inductive WindowRow := Ellipsis | Row (num : Z) (text : string).

(** [lines[lineNum] || ''] *)
Definition lineAt (lines : list string) (i : Z) : string :=
  match nth_error lines (Z.to_nat i) with Some t => t | None => "" end.

(** The rendering loop; [last] is [lastLine], initially [-2]. *)
Fixpoint renderRows (lines : list string) (last : Z) (is : list Z) : list WindowRow :=
  match is with
  | [] => []
  | i :: is' =>
      app (if i >? last + 1 then [Ellipsis] else [])
          (Row (i + 1) (lineAt lines i) :: renderRows lines i is')
  end.

(** The window of one chunk: [[max(0, start-W-1), min(len-1, end+W-1)]]. *)
Definition windowLines (W len : Z) (c : DiffChunk) : list Z :=
  zrange (Z.max 0 (startLine c - W - 1)) (Z.min (len - 1) (endLine c + W - 1)).

(** What [extractContextWindow] returns: the whole content when the diff
    has no chunks, else the header [文件: path] and a blank line (not
    modelled) followed by the rows. *)
Inductive WindowOutput := WindowFull (content : string) | WindowRows (rows : list WindowRow).

Definition contextLineSet (W : Z) (lines : list string) (chunks : list DiffChunk) : list Z :=
  fold_left (fun s c => fold_left setAddZ (windowLines W (Z.of_nat (length lines)) c) s)
    chunks [].

Definition extractContextWindow (W : Z) (diffOutput content : string) : WindowOutput :=
  match parseDiffChunks diffOutput with
  | [] => WindowFull content
  | chunks =>
      let lines := JS.split_nl content in
      WindowRows (renderRows lines (-2) (sortZ (contextLineSet W lines chunks)))
  end.

(** [chunks.sort((a, b) => b.size - a.size)]: a stable sort by
    decreasing size. *)
Fixpoint insertBySizeDesc (x : DiffChunk) (l : list DiffChunk) : list DiffChunk :=
  match l with
  | [] => [x]
  | y :: l' => if size y <=? size x then x :: l else y :: insertBySizeDesc x l'
  end.

Definition sortBySizeDesc (l : list DiffChunk) : list DiffChunk :=
  fold_right insertBySizeDesc [] l.

Definition selectImportantChunks (chunks : list DiffChunk) (maxCount : nat) : list DiffChunk :=
  if (length chunks <=? maxCount)%nat then chunks
  else firstn maxCount (sortBySizeDesc chunks).

(** The [importantPatterns] of [findHeaderEnd]. In [\s+.*from] and
    [\s+.*=] the greedy [\s+] may leave spaces to [.*] on backtracking;
    taking all of them loses no match, since [.*] cannot cross a line
    terminator and the spaces it could take are also spaces of [\s+]. *)
Definition headerPatterns : list (string -> bool) :=
  [ (fun s => Rx.matches (Rx.bind (Rx.lit "import" s) (Rx.plus JS.is_space)));
    (fun s => Rx.matches (Rx.bind (Rx.bind (Rx.lit "export" s) (Rx.plus JS.is_space))
                 (Rx.dotStarLit "from")));
    (fun s => JS.startsWith s "/**");
    (fun s => JS.startsWith s "//");
    (fun s => Rx.matches (Rx.bind (Rx.bind (Rx.bind (Rx.lit "export" s)
                 (Rx.plus JS.is_space)) (Rx.lit "type")) (Rx.plus JS.is_space)));
    (fun s => Rx.matches (Rx.bind (Rx.bind (Rx.bind (Rx.lit "export" s)
                 (Rx.plus JS.is_space)) (Rx.lit "interface")) (Rx.plus JS.is_space)));
    (fun s => Rx.matches (Rx.bind (Rx.bind (Rx.lit "type" s) (Rx.plus JS.is_space))
                 (Rx.dotStarLit "=")));
    (fun s => Rx.matches (Rx.bind (Rx.lit "interface" s) (Rx.plus JS.is_space))) ].

(** [!line || line.startsWith('//') || line.startsWith('/*') || line.startsWith('*')] *)
Definition skippableLine (line : string) : bool :=
  String.eqb line "" || JS.startsWith line "//" || JS.startsWith line "/*"
  || JS.startsWith line "*".

Definition isHeaderContent (line : string) : bool :=
  existsb (fun p => p line) headerPatterns.

(** [line.includes('function') || line.includes('class') || line.includes('const')] *)
Definition mainCodeLine (line : string) : bool :=
  JS.includes line "function" || JS.includes line "class" || JS.includes line "const".

(** The loop of [findHeaderEnd] from index [i] with the current
    [headerEnd]; [lines[i]?.trim() || ''] is [trim] of an existing line. *)
Fixpoint headerScan (ls : list string) (i headerEnd : Z) : Z :=
  match ls with
  | [] => headerEnd
  | l :: ls' =>
      let line := JS.trim l in
      if skippableLine line then headerScan ls' (i + 1) (i + 1)
      else if isHeaderContent line then headerScan ls' (i + 1) (i + 1)
      else if mainCodeLine line then headerEnd
      else headerScan ls' (i + 1) headerEnd
  end.

(** [findHeaderEnd]: the loop runs over the first [min(lines.length, 30)]
    lines. *)
Definition findHeaderEnd (lines : list string) : Z := headerScan (firstn 30 lines) 0 0.

(* ------------------------------------------------------------------ *)
(** ** Analysis cache of [analyzeFileChanges]

    [this.cache] is a [Map<string, ChangeAnalysis>] keyed by
    [getCacheKey(filePath)] ([filePath:mtime], or [filePath] when [stat]
    fails); the key is an input here. A JS [Map] is an association list
    in insertion order: [set] on a present key replaces its value in
    place, on a new key it appends. *)

Fixpoint jsMapGet {A : Type} (k : string) (m : list (string * A)) : option A :=
  match m with
  | [] => None
  | (k', v) :: m' => if String.eqb k k' then Some v else jsMapGet k m'
  end.

Fixpoint jsMapSet {A : Type} (k : string) (v : A) (m : list (string * A)) : list (string * A) :=
  match m with
  | [] => [(k, v)]
  | (k', v') :: m' => if String.eqb k k' then (k, v) :: m' else (k', v') :: jsMapSet k v m'
  end.

(** [analyzeFileChanges] with its cache lookup and store: on a hit
    ([enableCaching && cache.has(cacheKey)]) the stored analysis is
    returned; otherwise the analysis is computed from the file content
    and the diff statistics and, with caching on, stored under the key. *)
Definition cachedAnalyzeFileChanges (enableCaching : bool) (maxTokensPerFile : Z)
    (cache : list (string * ChangeAnalysis)) (cacheKey path content : string)
    (ds : DiffStats) : ChangeAnalysis * list (string * ChangeAnalysis) :=
  match (if enableCaching then jsMapGet cacheKey cache else None) with
  | Some a => (a, cache)
  | None =>
      let a := analyzeFileChanges maxTokensPerFile path content ds in
      (a, if enableCaching then jsMapSet cacheKey a cache else cache)
  end.

(* ------------------------------------------------------------------ *)
(** ** Dependency analyzer: [DependencyAnalyzer]

    The dependency cache is a [Map<string, FileDependency>]; the fields
    [imports], [exports] and [externalDependencies] of a
    [FileDependency] are not read by the functions modelled here and are
    left out. [path.resolve] is a parameter [resolve]. *)

Record FileDependency := mkFileDependency {
  fd_filePath : string;
  fd_dependencies : list string;
  fd_dependents : list string }.

(** [dependency.dependents = l] on a copy of the record. *)
Definition withDependents (d : FileDependency) (l : list string) : FileDependency :=
  mkFileDependency (fd_filePath d) (fd_dependencies d) l.

(** [map.get(k)] on a dependency map. *)
Definition depLookup (k : string) (m : list (string * FileDependency)) : option FileDependency :=
  jsMapGet k m.

(** Replacing the value of a present key in place; the map is unchanged
    when the key is absent. *)
Fixpoint depReplace (k : string) (d : FileDependency) (m : list (string * FileDependency))
    : list (string * FileDependency) :=
  match m with
  | [] => []
  | (k', d') :: m' => if String.eqb k k' then (k', d) :: m' else (k', d') :: depReplace k d m'
  end.

Section Dependencies.

Variable resolve : string -> string.

(** [getDirectDependencies] *)
Definition getDirectDependencies (cache : list (string * FileDependency)) (filePath : string)
    : list string :=
  match depLookup (resolve filePath) cache with
  | Some d => fd_dependencies d
  | None => []
  end.

(** [getDependents] *)
Definition getDependents (cache : list (string * FileDependency)) (filePath : string)
    : list string :=
  match depLookup (resolve filePath) cache with
  | Some d => fd_dependents d
  | None => []
  end.

(** The inner [traverse] of [getTransitiveDependencies] and
    [getTransitiveDependents], over the neighbour function [next]; the
    state is the pair ([visited], [result]). [fuel] bounds the recursion
    depth: a call at depth [maxDepth + 1] returns at its first test, so
    [maxDepth + 2] levels from depth [0] never run out (see
    [traverse_fuel] below). *)
Fixpoint traverse (next : string -> list string) (maxDepth : Z) (fuel : nat)
    (currentPath : string) (depth : Z) (st : list string * list string)
    : list string * list string :=
  match fuel with
  | O => st
  | S f =>
      if (depth >? maxDepth) || existsb (String.eqb currentPath) (fst st) then st
      else
        fold_left
          (fun st dep =>
             if existsb (String.eqb dep) (fst st) then st
             else traverse next maxDepth f dep (depth + 1) (fst st, app (snd st) [dep]))
          (next currentPath) (currentPath :: fst st, snd st)
  end.

(** [getTransitiveDependencies(filePath, maxDepth)] *)
Definition getTransitiveDependencies (cache : list (string * FileDependency))
    (filePath : string) (maxDepth : Z) : list string :=
  snd (traverse (getDirectDependencies cache) maxDepth (Z.to_nat (maxDepth + 2))
         (resolve filePath) 0 ([], [])).

(** [getTransitiveDependents(filePath, maxDepth)]: unlike
    [getTransitiveDependencies], it starts from [filePath] as given. *)
Definition getTransitiveDependents (cache : list (string * FileDependency))
    (filePath : string) (maxDepth : Z) : list string :=
  snd (traverse (getDependents cache) maxDepth (Z.to_nat (maxDepth + 2))
         filePath 0 ([], [])).

(** [[...new Set(arr)]]: the first occurrences, in order. *)
Definition uniqStrings (l : list string) : list string :=
  fold_left (fun acc x => if existsb (String.eqb x) acc then acc else app acc [x]) l [].

Record RelatedFiles := mkRelatedFiles {
  rf_dependencies : list string;
  rf_dependents : list string;
  rf_related : list string }.

(** [getRelatedFiles(filePath, maxDepth)] *)
Definition getRelatedFiles (cache : list (string * FileDependency)) (filePath : string)
    (maxDepth : Z) : RelatedFiles :=
  let absolutePath := resolve filePath in
  let dependencies := getTransitiveDependencies cache absolutePath maxDepth in
  let dependents := getTransitiveDependents cache absolutePath maxDepth in
  mkRelatedFiles dependencies dependents (uniqStrings (app dependencies dependents)).

End Dependencies.

(** [depFile.dependents.push(filePath)] for [depFile = files.get(depPath)]
    when it exists. *)
Definition pushDependent (filePath : string) (files : list (string * FileDependency))
    (depPath : string) : list (string * FileDependency) :=
  match depLookup depPath files with
  | Some depFile =>
      depReplace depPath (withDependents depFile (app (fd_dependents depFile) [filePath])) files
  | None => files
  end.

(** [buildDependencyRelationships]: every [dependents] list is emptied,
    then each file is pushed onto the [dependents] of each of its
    dependencies present in the map. The loop reads only the
    [dependencies] fields, which it never changes, so reading them from
    the input map is the same as reading the mutated one. *)
Definition buildDependencyRelationships (files : list (string * FileDependency))
    : list (string * FileDependency) :=
  let cleared := map (fun p => (fst p, withDependents (snd p) [])) files in
  fold_left (fun fs p => fold_left (pushDependent (fst p)) (fd_dependencies (snd p)) fs)
    files cleared.

(* ------------------------------------------------------------------ *)
(** ** Concrete instances *)

(** String values: md5 of a string is taken as injective, so the
    string itself stands for its hash; the JSON of an ASCII string
    without escapes is two bytes longer than the string. *)
Definition strHash (v : string) : string := v.
Definition strSize (v : string) : Z := Z.of_nat (String.length v) + 2.

Definition emptyCache : CacheState (V := string) := mkCacheState [] 0 0 0 0.

(** [DEFAULT_CACHE_CONFIG] with the [lru] policy. *)
Definition defaultCacheConfig : CacheConfig := mkCacheConfig true 100 1000 86400 lru.

Definition noOptions : SetOptions := mkSetOptions None None [] false.

(** A 1 MB cache holding at most one entry. *)
Definition tinyCacheConfig : CacheConfig := mkCacheConfig true 1 1 86400 lru.

(** [enabled: false]. *)
Definition disabledCacheConfig : CacheConfig := mkCacheConfig false 100 1000 86400 lru.

(* ------------------------------------------------------------------ *)
(** ** The strategy table as the specification words it

    Spec, section 4.3: an ordered decision table, first match wins. Each
    row is a guard and the strategy it selects. *)

Definition strategyTable (a : ChangeAnalysis) : list (bool * ContextStrategy) :=
  let r := changeRatio a in
  let n := fileSize a in
  [ (isDeleted a, DIFF_ONLY);
    (isNewFile a && (n <? 100), FULL_FILE);
    (isNewFile a, SMART_SUMMARY);
    (n <? 20, FULL_FILE);
    (FileType_eqb (fileType a) CONFIG && (n <? 50), FULL_FILE);
    (Qle_bool r (1 # 10) && (chunkCount a <=? 2), DIFF_ONLY);
    (Qle_bool r (1 # 10), CONTEXT_WINDOW);
    (Qle_bool r (3 # 10) && hasApiChanges a, AFFECTED_BLOCKS);
    (Qle_bool r (3 # 10), CONTEXT_WINDOW);
    (Qle_bool r (7 # 10) && (n >? 100), SMART_SUMMARY);
    (Qle_bool r (7 # 10), AFFECTED_BLOCKS);
    (n <? 150, FULL_FILE);
    (true, SMART_SUMMARY) ].

Fixpoint firstMatch (rows : list (bool * ContextStrategy)) (dflt : ContextStrategy) :=
  match rows with
  | [] => dflt
  | (g, s) :: rows' => if g then s else firstMatch rows' dflt
  end.

Definition specStrategy (a : ChangeAnalysis) : ContextStrategy :=
  firstMatch (strategyTable a) SMART_SUMMARY.

(** The budget order [DiffOnly < ContextWindow < AffectedBlocks <
    SmartSummary < FullFile]. *)
Definition budgetRank (s : ContextStrategy) : nat :=
  match s with
  | DIFF_ONLY => 0 | CONTEXT_WINDOW => 1 | AFFECTED_BLOCKS => 2
  | SMART_SUMMARY => 3 | FULL_FILE => 4
  end.

(** The analysis [a] with its change ratio replaced by [r]. *)
Definition withRatio (a : ChangeAnalysis) (r : Q) : ChangeAnalysis :=
  {| filePath := filePath a; fileSize := fileSize a; changeRatio := r;
     chunkCount := chunkCount a; maxChunkSize := maxChunkSize a;
     totalChangedLines := totalChangedLines a; additions := additions a;
     deletions := deletions a; isNewFile := isNewFile a; isDeleted := isDeleted a;
     fileType := fileType a; hasApiChanges := hasApiChanges a;
     strategy := strategy a; estimatedTokens := estimatedTokens a |}.

(* ------------------------------------------------------------------ *)
(** ** Notions used in the statements below *)

(** A region as the parser builds it: its size counts the lines from
    [startLine] to [endLine]. *)
Definition chunkWellFormed (c : DiffChunk) : Prop :=
  size c = endLine c - startLine c + 1 /\ 0 <= size c.

(** The invariant of the parser's loop state. *)
Definition parseInv (st : ParseState) : Prop :=
  Forall chunkWellFormed (chunks_acc st)
  /\ (forall s ty, currentChunk st = Some (s, ty) -> s <= currentLineNum st).

(** The new-file start lines of the hunk headers among [lines], in order. *)
Definition hunkStarts (lines : list string) : list Z :=
  flat_map (fun l => match hunkHeader l with Some c => [c] | None => [] end) lines.

(** The start lines of the regions closed so far and of the open one. *)
Definition parseStarts (st : ParseState) : list Z :=
  app (map startLine (chunks_acc st))
      (match currentChunk st with Some (s, _) => [s] | None => [] end).

(** The line numbers of the rows of a rendered window. *)
Definition rowNums (rows : list WindowRow) : list Z :=
  flat_map (fun r => match r with Row n _ => [n] | Ellipsis => [] end) rows.

(** The order [selectImportantChunks] sorts by: larger regions first. *)
Definition sizeGe (a b : DiffChunk) : Prop := size b <= size a.

(** The size statistics agree with the entries, as [updateStats] leaves
    them. *)
Definition statsConsistent {V : Type} (st : CacheState (V := V)) : Prop :=
  totalSize st = sumSizes (memoryCache st)
  /\ entryCount st = Z.of_nat (length (memoryCache st)).

(** A line that, once trimmed, [findHeaderEnd] counts into the header:
    blank, a comment, or header content. *)
Definition headerOk (l : string) : bool :=
  skippableLine (JS.trim l) || isHeaderContent (JS.trim l).

(** [b] is reached from [a] along at least one and at most [n] edges of
    the neighbour function [next]. *)
Inductive depReach (next : string -> list string) : nat -> string -> string -> Prop :=
| depReach_step n a b : In b (next a) -> depReach next (S n) a b
| depReach_trans n a c b : In c (next a) -> depReach next n c b -> depReach next (S n) a b.

(** The brace balance of a run of characters: ['{'] counts [+1] and
    ['}'] counts [-1]. *)
Definition braceStep (c : ascii) : Z :=
  if Ascii.eqb c "{"%char then 1 else if Ascii.eqb c "}"%char then -1 else 0.

Definition braceBalance (cs : list ascii) : Z :=
  fold_right (fun c acc => braceStep c + acc) 0 cs.

(** Some ['}'] of [cs] closes a brace: a ['{'] comes before it and the
    balance up to and including it is zero. *)
Definition closesBrace (cs : list ascii) : Prop :=
  exists pre rest, cs = app pre ("}"%char :: rest) /\ In "{"%char pre
                   /\ braceBalance (app pre ["}"%char]) = 0.

(** The characters of the file's lines from index [b] on, in order. *)
Definition charsFrom (lines : list string) (b : Z) : list ascii :=
  flat_map list_ascii_of_string (skipn (Z.to_nat b) lines).

(* ------------------------------------------------------------------ *)
(** * Properties *)

(** ** Evaluations on small inputs *)

Example analyze_sample :
  let a := analyzeFileChanges 4000 "src/app.ts" (JS.join_nl ["a"; "b"; "c"]) (mkDiffStats 3 0 []) in
  (isNewFile a, strategy a, fileType a) = (true, FULL_FILE, CORE).
Proof. reflexivity. Qed.

Example api_sample : detectApiChanges "x;
export  function f() {}" = true.
Proof. reflexivity. Qed.

Example filetype_sample : detectFileType "Config/App.JSON" = CONFIG.
Proof. reflexivity. Qed.

Example parse_sample :
  parseDiffChunks (JS.join_nl ["diff --git a/x b/x"; "--- a/x"; "+++ b/x";
                               "@@ -1,2 +1,3 @@"; " a"; "+b"; " c"])
  = [mkChunk 1 4 4 addition].
Proof. reflexivity. Qed.

Example block_sample :
  findContainingBlock ["import x;"; "export function f() {"; "  return 1;"; "}"; "z"] 3 3
  = [(2, "export function f() {"); (3, "  return 1;"); (4, "}")].
Proof. reflexivity. Qed.

(** ** Change analyzer and strategy selector *)

Lemma split_nl_aux_nonempty (s cur : string) : (1 <= length (JS.split_nl_aux s cur))%nat.
Proof.
  revert cur; induction s as [|c s IH]; intros cur; simpl; [lia|].
  destruct (Ascii.eqb c JS.nl); simpl; [lia|apply IH].
Qed.

Lemma fileSize_pos (s : string) : 1 <= Z.of_nat (length (JS.split_nl s)).
Proof. pose proof (split_nl_aux_nonempty s EmptyString). unfold JS.split_nl. lia. Qed.

Lemma Qle_bool_false (x y : Q) : Qle_bool x y = false -> (y < x)%Q.
Proof.
  intros H. apply Qnot_le_lt. intros Hle. apply Qle_bool_iff in Hle. congruence.
Qed.

(** C1 (failing input). A modified file rewritten in full: the new
    content ["p\nq\n"] (three pieces after [split]), two lines added and
    two deleted. The analyzer computes the change ratio 4/3, above 1. *)
Theorem analyze_ratio_above_one :
  let a := analyzeFileChanges 4000 "src/app.ts" (JS.join_nl ["p"; "q"; ""])
             (mkDiffStats 2 2 []) in
  isNewFile a = false /\ isDeleted a = false /\ changeRatio a = (4 # 3)%Q
  /\ (1 < changeRatio a)%Q.
Proof. vm_compute. repeat split; reflexivity. Qed.

Ltac destruct_ifs :=
  repeat match goal with
         | |- context [if ?b then _ else _] => destruct b eqn:?
         end.

(** C2. [selectOptimalStrategy] is the ordered, first-match-wins table
    of the specification: deleted, new (by size), tiny, small config,
    then the ratio bands 0.10 / 0.30 / 0.70 and the final size split. *)
Theorem selectOptimalStrategy_table (a : ChangeAnalysis) :
  selectOptimalStrategy a = specStrategy a.
Proof.
  unfold selectOptimalStrategy, specStrategy, strategyTable; simpl.
  destruct_ifs; simpl in *; try reflexivity; try congruence.
Qed.

(** C3. For a modified file (neither new nor deleted) the change ratio is
    [(added + deleted) / max(file_line_count + max(0, deleted - added), 1)];
    [file_line_count] is the number of pieces of [content.split('\n')],
    never 0, so the source's guard [baseSize > 0] always holds. *)
Theorem analyze_modified_ratio (maxTok : Z) (path content : string) (ds : DiffStats)
    (Hnew : isNewFile (analyzeFileChanges maxTok path content ds) = false)
    (Hdel : isDeleted (analyzeFileChanges maxTok path content ds) = false) :
  let a := analyzeFileChanges maxTok path content ds in
  changeRatio a =
    (inject_Z (additions a + deletions a) /
     inject_Z (Z.max (fileSize a + Z.max 0 (deletions a - additions a)) 1))%Q
  /\ 1 <= fileSize a.
Proof.
  pose proof (fileSize_pos content) as Hpos.
  revert Hnew Hdel; unfold analyzeFileChanges; cbn zeta; simpl.
  intros Hnew Hdel; rewrite Hnew, Hdel; unfold changedAndRatio; simpl.
  split; [|exact Hpos].
  set (n := Z.of_nat (length (JS.split_nl content))) in *.
  pose proof (Z.le_max_l 0 (deletions_ds ds - additions_ds ds)).
  assert (Hb : (n + Z.max 0 (deletions_ds ds - additions_ds ds) >? 0) = true)
    by (apply Z.gtb_lt; lia).
  rewrite Hb.
  rewrite (Z.max_l (n + Z.max 0 (deletions_ds ds - additions_ds ds)) 1) by lia.
  reflexivity.
Qed.

Lemma analyze_modified_ratio_witness :
  let a := analyzeFileChanges 4000 "src/app.ts" (JS.join_nl ["x"; "y"; "z"; "w"])
             (mkDiffStats 1 3 []) in
  isNewFile a = false /\ isDeleted a = false /\
  (changeRatio a =
    (inject_Z (additions a + deletions a) /
     inject_Z (Z.max (fileSize a + Z.max 0 (deletions a - additions a)) 1))%Q
  /\ 1 <= fileSize a).
Proof.
  split; [reflexivity|]. split; [reflexivity|].
  apply (analyze_modified_ratio 4000 "src/app.ts" (JS.join_nl ["x"; "y"; "z"; "w"])
           (mkDiffStats 1 3 [])); reflexivity.
Defined.

(** C9. Every analysis satisfies: a new file has change ratio 1 and no
    deleted lines; a deleted file has no added lines. *)
Theorem analyze_new_deleted_invariants (maxTok : Z) (path content : string) (ds : DiffStats) :
  let a := analyzeFileChanges maxTok path content ds in
  (isNewFile a = true -> changeRatio a = 1%Q /\ deletions a = 0)
  /\ (isDeleted a = true -> additions a = 0).
Proof.
  unfold analyzeFileChanges; cbn zeta; simpl.
  split.
  - intros Hn. rewrite Hn. split; [reflexivity|].
    apply andb_true_iff in Hn as [Hd _]. apply Z.eqb_eq; exact Hd.
  - intros Hd. apply andb_true_iff in Hd as [Ha _]. apply Z.eqb_eq; exact Ha.
Qed.

(** C8. With all other fields fixed, a larger change ratio never selects a
    strategy of smaller budget. *)
Theorem select_monotone_in_ratio (a : ChangeAnalysis) (r1 r2 : Q) (Hlt : (r1 < r2)%Q) :
  (budgetRank (selectOptimalStrategy (withRatio a r1))
   <= budgetRank (selectOptimalStrategy (withRatio a r2)))%nat.
Proof.
  unfold selectOptimalStrategy, withRatio; simpl.
  destruct_ifs; simpl; try lia;
  repeat match goal with
         | H : Qle_bool _ _ = true |- _ => apply Qle_bool_iff in H
         | H : Qle_bool _ _ = false |- _ => apply Qle_bool_false in H
         end; exfalso; lra.
Qed.

Lemma select_monotone_in_ratio_witness :
  let a := analyzeFileChanges 4000 "src/app.ts" (JS.join_nl (repeat "x" 200))
             (mkDiffStats 5 5 []) in
  selectOptimalStrategy (withRatio a (1 # 5)) = CONTEXT_WINDOW
  /\ selectOptimalStrategy (withRatio a (1 # 2)) = SMART_SUMMARY
  /\ (1 # 5 < 1 # 2)%Q
  /\ (budgetRank (selectOptimalStrategy (withRatio a (1 # 5)))
      <= budgetRank (selectOptimalStrategy (withRatio a (1 # 2))))%nat.
Proof.
  split; [vm_compute; reflexivity|]. split; [vm_compute; reflexivity|].
  split; [reflexivity|].
  apply select_monotone_in_ratio. reflexivity.
Defined.

(** ** Diff parser *)

(** C4 (failing input). In a hunk holding a deleted line followed by an
    added line, the ['+'] line overwrites the region's type with
    [addition] (the ['-'] branch keeps the mixed case as [modification],
    the ['+'] branch does not); and after ['+'], ['-'], ['-'] the type is
    back to [deletion]. *)
Theorem parse_mixed_hunk_types :
  parseDiffChunks (JS.join_nl ["@@ -1,1 +1,1 @@"; "-old"; "+new"])
    = [mkChunk 1 2 2 addition]
  /\ parseDiffChunks (JS.join_nl ["@@ -1,2 +1,1 @@"; "+new"; "-old"; "-older"])
    = [mkChunk 1 2 2 deletion].
Proof. split; reflexivity. Qed.

(** ** Affected-block extraction *)

Lemma block_eqb_eq (a b : list (Z * string)) : block_eqb a b = true <-> a = b.
Proof.
  revert b; induction a as [|[n t] a IH]; intros [|[n' t'] b]; unfold block_eqb; simpl.
  - split; reflexivity.
  - split; discriminate.
  - split; discriminate.
  - rewrite !andb_true_iff, Nat.eqb_eq, Z.eqb_eq, String.eqb_eq.
    specialize (IH b). unfold block_eqb in IH. rewrite andb_true_iff, Nat.eqb_eq in IH.
    split.
    + intros [Hl [[Hn Ht] Hr]]. subst. f_equal. apply IH. split; [lia|exact Hr].
    + intros H. inversion H; subst. split; [reflexivity|split; [split; reflexivity|]].
      apply IH. reflexivity.
Qed.

Lemma setAdd_not_nil (s : list (list (Z * string))) (b : list (Z * string)) :
  setAdd s b <> [].
Proof.
  unfold setAdd. destruct (existsb (block_eqb b) s) eqn:E.
  - destruct s; [discriminate | congruence].
  - destruct s; discriminate.
Qed.

Lemma fold_blocks_nil (lines : list string) (cs : list DiffChunk) acc :
  fold_left (fun acc c =>
      let blk := findContainingBlock lines (startLine c) (endLine c) in
      match blk with [] => acc | _ => setAdd acc blk end) cs acc = []
  <-> acc = [] /\ (forall c, In c cs -> findContainingBlock lines (startLine c) (endLine c) = []).
Proof.
  revert acc; induction cs as [|c cs IH]; intros acc; simpl.
  - split; [intros H; split; [exact H | tauto] | tauto].
  - rewrite IH. destruct (findContainingBlock lines (startLine c) (endLine c)) as [|p ps] eqn:E.
    + split.
      * intros [H1 H2]; split; [exact H1|]. intros c' [<- | Hin]; [exact E | auto].
      * intros [H1 H2]; split; [exact H1|]. auto.
    + split.
      * intros [H1 _]. exfalso; exact (setAdd_not_nil _ _ H1).
      * intros [_ H2]. rewrite (H2 c (or_introl eq_refl)) in E. discriminate.
Qed.

Lemma scanUp_no_decl (lines : list string) (s : Z)
    (Hnone : forall i, 0 <= i < s -> isBlockStart lines i = false) :
  forall n i, i + 1 <= Z.of_nat n -> i < s -> scanUp lines n i < 0.
Proof.
  induction n as [|n IH]; intros i Hfuel Hi; simpl.
  - lia.
  - destruct (i <? 0) eqn:Hneg; [apply Z.ltb_lt; exact Hneg|].
    apply Z.ltb_ge in Hneg.
    rewrite (Hnone i) by lia. apply IH; lia.
Qed.

(** C5 (counterexample). Region 1-2 of the three-line file [a b c]: no
    line is a declaration, and the extractor returns a block (lines 1-2,
    starting [max(0, 1-10)]) instead of the [ContextWindow] extraction. *)
Lemma affected_blocks_no_declaration :
  forallb (fun l => negb (existsb (fun p => p l) blockPatterns)) ["a"; "b"; "c"] = true
  /\ extractAffectedBlocks (JS.join_nl ["@@ -1,1 +1,1 @@"; "-x"; "+y"])
                           (JS.join_nl ["a"; "b"; "c"])
     = AO_Blocks [[(1, "a"); (2, "b")]]
  /\ extractAffectedBlocks (JS.join_nl ["@@ -1,1 +1,1 @@"; "-x"; "+y"])
                           (JS.join_nl ["a"; "b"; "c"]) <> AO_ContextWindow.
Proof. split; [reflexivity|]. split; [reflexivity|]. vm_compute. discriminate. Qed.

Lemma braceBalance_app (a b : list ascii) :
  braceBalance (app a b) = braceBalance a + braceBalance b.
Proof.
  induction a as [|c a IH]; simpl; [reflexivity|]. unfold braceBalance in *. simpl.
  rewrite IH. lia.
Qed.

Lemma braceBalance_cons (c : ascii) (l : list ascii) :
  braceBalance (c :: l) = braceStep c + braceBalance l.
Proof. reflexivity. Qed.

Lemma braceStep_open : braceStep "{"%char = 1.
Proof. reflexivity. Qed.

Lemma braceStep_close : braceStep "}"%char = -1.
Proof. reflexivity. Qed.

Ltac brace_norm :=
  repeat (rewrite <- ?app_comm_cons, ?app_nil_l, ?braceBalance_cons in * );
  rewrite ?braceStep_open, ?braceStep_close in *.

Lemma braceChars_spec (cs : list ascii) :
  forall cnt found,
  let '(cnt', found', closed) := braceChars cs cnt found in
  (closed = true ->
     exists pre rest, cs = app pre ("}"%char :: rest) /\ (found = true \/ In "{"%char pre)
                      /\ cnt + braceBalance (app pre ["}"%char]) = 0)
  /\ (closed = false ->
        cnt' = cnt + braceBalance cs /\ (found' = true -> found = true \/ In "{"%char cs)).
Proof.
  induction cs as [|c cs IH]; intros cnt found; cbn [braceChars].
  - split; [discriminate|]. intros _. split; [change (braceBalance []) with 0; lia|].
    intros H; left; exact H.
  - destruct (Ascii.eqb c "{"%char) eqn:E1.
    + apply Ascii.eqb_eq in E1; subst c.
      specialize (IH (cnt + 1) true).
      destruct (braceChars cs (cnt + 1) true) as [[cnt' found'] closed].
      destruct IH as [IH1 IH2]. split.
      * intros Hc. destruct (IH1 Hc) as [pre [rest [Hs [_ Hb]]]].
        exists ("{"%char :: pre), rest. split; [rewrite Hs; reflexivity|].
        split; [right; left; reflexivity|]. brace_norm. lia.
      * intros Hc. destruct (IH2 Hc) as [H1 _].
        split; [brace_norm; lia|]. intros _. right; left; reflexivity.
    + destruct (Ascii.eqb c "}"%char) eqn:E2.
      * apply Ascii.eqb_eq in E2; subst c.
        destruct (found && (cnt - 1 =? 0)) eqn:Ef.
        -- split; [|discriminate]. intros _. apply andb_true_iff in Ef as [Hf Hz].
           apply Z.eqb_eq in Hz. exists [], cs. split; [reflexivity|].
           split; [left; exact Hf|]. brace_norm. change (braceBalance []) with 0. lia.
        -- specialize (IH (cnt - 1) found).
           destruct (braceChars cs (cnt - 1) found) as [[cnt' found'] closed].
           destruct IH as [IH1 IH2]. split.
           ++ intros Hc. destruct (IH1 Hc) as [pre [rest [Hs [Hf Hb]]]].
              exists ("}"%char :: pre), rest. split; [rewrite Hs; reflexivity|].
              split; [destruct Hf as [Hf|Hf]; [left; exact Hf|right; right; exact Hf]|].
              brace_norm. lia.
           ++ intros Hc. destruct (IH2 Hc) as [H1 H2].
              split; [brace_norm; lia|].
              intros Hf'. destruct (H2 Hf') as [H|H]; [left; exact H|right; right; exact H].
      * specialize (IH cnt found).
        destruct (braceChars cs cnt found) as [[cnt' found'] closed].
        assert (Hs0 : braceStep c = 0) by (unfold braceStep; rewrite E1, E2; reflexivity).
        destruct IH as [IH1 IH2]. split.
        -- intros Hc. destruct (IH1 Hc) as [pre [rest [Hs [Hf Hb]]]].
           exists (c :: pre), rest. split; [rewrite Hs; reflexivity|].
           split; [destruct Hf as [Hf|Hf]; [left; exact Hf|right; right; exact Hf]|].
           brace_norm. rewrite Hs0. lia.
        -- intros Hc. destruct (IH2 Hc) as [H1 H2].
           split; [brace_norm; rewrite Hs0; lia|].
           intros Hf'. destruct (H2 Hf') as [H|H]; [left; exact H|right; right; exact H].
Qed.

Lemma braceScan_spec (ls : list (Z * string)) :
  forall cnt found be,
  braceScan ls cnt found be = be
  \/ exists pre rest, flat_map (fun p => list_ascii_of_string (snd p)) ls
                      = app pre ("}"%char :: rest)
                      /\ (found = true \/ In "{"%char pre)
                      /\ cnt + braceBalance (app pre ["}"%char]) = 0.
Proof.
  induction ls as [|[i line] ls IH]; intros cnt found be; simpl; [left; reflexivity|].
  destruct (String.eqb line "") eqn:Ee.
  - apply String.eqb_eq in Ee; subst line. simpl. apply IH.
  - pose proof (braceChars_spec (list_ascii_of_string line) cnt found) as Hsp.
    destruct (braceChars (list_ascii_of_string line) cnt found) as [[cnt' found'] closed].
    destruct Hsp as [Hc1 Hc2]. destruct closed.
    + right. destruct (Hc1 eq_refl) as [pre [rest [Hs [Hf Hb]]]].
      exists pre, (app rest (flat_map (fun p => list_ascii_of_string (snd p)) ls)).
      split; [rewrite Hs, <- app_assoc; reflexivity|]. split; assumption.
    + destruct (Hc2 eq_refl) as [Hcnt Hf'].
      destruct (found' && (cnt' =? 0)); [left; reflexivity|].
      destruct (IH cnt' found' be) as [H|[pre [rest [Hs [Hf Hb]]]]]; [left; exact H|].
      right. exists (app (list_ascii_of_string line) pre), rest.
      split; [rewrite Hs, app_assoc; reflexivity|]. split.
      * destruct Hf as [Hf|Hf].
        -- destruct (Hf' Hf) as [H|H]; [left; exact H|right; apply in_or_app; left; exact H].
        -- right. apply in_or_app; right; exact Hf.
      * rewrite <- app_assoc, braceBalance_app. lia.
Qed.

Lemma indexFrom_chars (n : nat) (i : Z) (l : list string) :
  flat_map (fun p => list_ascii_of_string (snd p)) (skipn n (indexFrom i l))
  = flat_map list_ascii_of_string (skipn n l).
Proof.
  revert n i. induction l as [|x l IH]; intros n i; simpl.
  - rewrite !skipn_nil. reflexivity.
  - destruct n as [|n]; simpl; [|apply IH].
    f_equal. specialize (IH O (i + 1)). simpl in IH. exact IH.
Qed.

Lemma indexFrom_head {A} (i : Z) (l : list A) (r : Z * A) rs :
  indexFrom i l = r :: rs -> fst r = i.
Proof. destruct l; simpl; intros H; inversion H; reflexivity. Qed.

Lemma fold_blocks_In (lines : list string) (cs : list DiffChunk) :
  forall acc c b, (In b acc \/ (In c cs /\ findContainingBlock lines (startLine c) (endLine c) = b
                              /\ b <> [])) ->
  In b (fold_left (fun acc c =>
      let blk := findContainingBlock lines (startLine c) (endLine c) in
      match blk with [] => acc | _ => setAdd acc blk end) cs acc).
Proof.
  induction cs as [|c0 cs IH]; intros acc c b H; simpl.
  - destruct H as [H|[[] _]]. exact H.
  - assert (Hadd : forall b', In b' acc -> In b' (setAdd acc (findContainingBlock lines
                (startLine c0) (endLine c0)))).
    { intros b' Hb'. unfold setAdd. destruct (existsb _ acc); [exact Hb'|].
      apply in_or_app; left; exact Hb'. }
    apply (IH _ c). destruct H as [H|[[<-|Hc] [Hb Hne]]].
    + left. destruct (findContainingBlock lines (startLine c0) (endLine c0)); [exact H|].
      apply Hadd, H.
    + left. rewrite Hb. destruct b as [|x xs]; [congruence|].
      unfold setAdd. destruct (existsb (block_eqb (x :: xs)) acc) eqn:E.
      * apply existsb_exists in E as [y [Hy Hxy]]. apply block_eqb_eq in Hxy.
        rewrite Hxy. exact Hy.
      * apply in_or_app; right; left; reflexivity.
    + right. split; [exact Hc|split; assumption].
Qed.

(** C5 (as the code does it). An empty diff gives the whole content.
    [extractAffectedBlocks] falls back to the [ContextWindow]
    extraction exactly when the diff has regions and every region
    yields an empty block; a region with a non-empty block is never a
    fallback: the block is among those returned. A region with no
    declaration at or above its start line gets a block starting at the
    0-based line [max(0, startLine - 10)]. When, from the block's start
    on, no ['}'] brings the brace balance back to zero after a ['{'],
    the block ends at the region's end line. *)
Theorem affected_blocks_fallback :
  (forall diff content,
     parseDiffChunks diff = [] -> extractAffectedBlocks diff content = AO_Content content)
  /\ (forall diff content,
     extractAffectedBlocks diff content = AO_ContextWindow
     <-> parseDiffChunks diff <> []
         /\ forall c, In c (parseDiffChunks diff) ->
              findContainingBlock (JS.split_nl content) (startLine c) (endLine c) = [])
  /\ (forall diff content c b,
        In c (parseDiffChunks diff) ->
        findContainingBlock (JS.split_nl content) (startLine c) (endLine c) = b -> b <> [] ->
        exists bs, extractAffectedBlocks diff content = AO_Blocks bs /\ In b bs)
  /\ (forall lines s e,
        (forall i, 0 <= i < s -> isBlockStart lines i = false) ->
        findBlockStart lines s = Z.max 0 (s - 10)
        /\ forall r rs, findContainingBlock lines s e = r :: rs -> fst r = Z.max 0 (s - 10) + 1)
  /\ (forall lines s e,
        ~ closesBrace (charsFrom lines (findBlockStart lines s)) ->
        findContainingBlock lines s e
        = indexFrom (findBlockStart lines s + 1) (js_slice lines (findBlockStart lines s) e)).
Proof.
  split; [intros diff content H; unfold extractAffectedBlocks; rewrite H; reflexivity|].
  split; [|split; [|split]].
  - intros diff content. unfold extractAffectedBlocks.
    destruct (parseDiffChunks diff) as [|c cs] eqn:Hc.
    + split; [discriminate | intros [H _]; congruence].
    + cbv zeta.
      match goal with
      | |- context [match fold_left ?f ?l ?a with [] => _ | _ => _ end] =>
          destruct (fold_left f l a) eqn:Hf
      end.
      * split; [intros _|reflexivity]. split; [discriminate|].
        apply (proj1 (fold_blocks_nil _ _ _) Hf).
      * split; [discriminate|]. intros [_ Hall]. exfalso.
        assert (Hnil : fold_left (fun acc c =>
                  let blk := findContainingBlock (JS.split_nl content) (startLine c) (endLine c) in
                  match blk with [] => acc | _ => setAdd acc blk end) (c :: cs) [] = []).
        { apply fold_blocks_nil. split; [reflexivity|exact Hall]. }
        simpl in Hnil, Hf. rewrite Hnil in Hf. discriminate.
  - intros diff content c b Hc Hb Hne. unfold extractAffectedBlocks.
    pose proof (fold_blocks_In (JS.split_nl content) (parseDiffChunks diff) [] c b
                  (or_intror (conj Hc (conj Hb Hne)))) as Hin.
    destruct (parseDiffChunks diff) as [|c0 cs]; [destruct Hc|].
    cbv zeta.
    match goal with
    | H : In b ?x |- context [match ?y with [] => _ | _ => _ end] =>
        change y with x; destruct x as [|b0 bs] eqn:Hf
    end; [destruct Hin|].
    exists (b0 :: bs). split; [reflexivity|exact Hin].
  - intros lines s e Hnone.
    assert (Hs : findBlockStart lines s = Z.max 0 (s - 10)).
    { unfold findBlockStart. rewrite (proj2 (Z.ltb_lt _ 0)); [reflexivity|].
      apply (scanUp_no_decl lines s Hnone); lia. }
    split; [exact Hs|]. intros r rs H. unfold findContainingBlock in H. cbv zeta in H.
    rewrite Hs in H. exact (indexFrom_head _ _ _ _ H).
  - intros lines s e Hno. unfold findContainingBlock. cbv zeta.
    destruct (braceScan_spec (skipn (Z.to_nat (findBlockStart lines s)) (indexFrom 0 lines))
                0 false (e - 1)) as [H|[pre [rest [Hs [Hf Hb]]]]].
    + rewrite H. replace (e - 1 + 1) with e by lia. reflexivity.
    + exfalso. apply Hno. rewrite indexFrom_chars in Hs.
      exists pre, rest. split; [exact Hs|]. split; [destruct Hf as [Hf|Hf]; [discriminate|exact Hf]|].
      lia.
Qed.

(** ** Cache *)

Section CacheProofs.

Context {V : Type}.
Implicit Types (m : list (string * CacheEntry (V := V))) (st : CacheState (V := V)).

Lemma map_get_set_eq k e m : map_get k (map_set k e m) = Some e.
Proof.
  induction m as [|[k' e'] m IH]; simpl.
  - rewrite String.eqb_refl; reflexivity.
  - destruct (String.eqb k k') eqn:E; simpl.
    + rewrite String.eqb_refl; reflexivity.
    + rewrite E; exact IH.
Qed.

Lemma map_get_set_neq k k' e m : k' <> k -> map_get k' (map_set k e m) = map_get k' m.
Proof.
  intros Hne. induction m as [|[k0 e0] m IH]; simpl.
  - apply String.eqb_neq in Hne. rewrite Hne; reflexivity.
  - destruct (String.eqb k k0) eqn:E; simpl.
    + apply String.eqb_eq in E; subst k0.
      apply String.eqb_neq in Hne. rewrite Hne; reflexivity.
    + destruct (String.eqb k' k0); [reflexivity | exact IH].
Qed.

Lemma map_set_length_present k e e0 m :
  map_get k m = Some e0 -> length (map_set k e m) = length m.
Proof.
  induction m as [|[k' e'] m IH]; simpl; [discriminate|].
  destruct (String.eqb k k'); simpl; [reflexivity|].
  intros H; rewrite (IH H); reflexivity.
Qed.

Lemma cache_set_stores (gh : V -> string) (cs : V -> Z) cfg now k v o st :
  enabled cfg = true ->
  exists e, map_get k (memoryCache (snd (cache_set gh cs cfg now k v o st))) = Some e
            /\ hash e = gh v.
Proof.
  intros Hon. unfold cache_set. rewrite Hon; simpl.
  destruct (map_get k (memoryCache st)) as [e|] eqn:Hg.
  - destruct (String.eqb (hash e) (gh v) && negb (forceUpdate o)) eqn:Hh.
    + exists (touch now e). simpl. split; [apply map_get_set_eq|].
      apply andb_true_iff in Hh as [Hh _]. apply String.eqb_eq in Hh. exact Hh.
    + eexists; simpl; split; [apply map_get_set_eq | reflexivity].
  - eexists; simpl; split; [apply map_get_set_eq | reflexivity].
Qed.

Lemma cache_set_short_circuit (gh : V -> string) (cs : V -> Z) cfg now k v o st e :
  enabled cfg = true -> forceUpdate o = false ->
  map_get k (memoryCache st) = Some e -> hash e = gh v ->
  cache_set gh cs cfg now k v o st
    = (true, withCache st (map_set k (touch now e) (memoryCache st))).
Proof.
  intros Hon Hf Hg Hh. unfold cache_set. rewrite Hon, Hg, Hh, Hf; simpl.
  rewrite String.eqb_refl. reflexivity.
Qed.

End CacheProofs.

(** C6 (counterexample). [set("k", "X")] twice on an empty cache: the
    entry's [accessCount] is 1 after the first call and still 1 after the
    second, not 2. *)
Lemma set_twice_access_count_unchanged :
  let st1 := snd (cache_set strHash strSize defaultCacheConfig 1 "k" "X" noOptions emptyCache) in
  let st2 := snd (cache_set strHash strSize defaultCacheConfig 2 "k" "X" noOptions st1) in
  option_map accessCount (map_get "k" (memoryCache st1)) = Some 1
  /\ option_map accessCount (map_get "k" (memoryCache st2)) = Some 1
  /\ option_map accessCount (map_get "k" (memoryCache st2)) <> Some 2.
Proof. vm_compute. split; [reflexivity|]. split; [reflexivity|]. discriminate. Qed.

(** C6 (as the code does it). A second [set(k, v)] with the same value
    and no [forceUpdate] returns [true] and only sets the entry's
    [lastAccessed] to the current time: its [accessCount], creation
    [timestamp] and every other field stay as they were, other keys are
    untouched, no entry is evicted and the size statistics do not move. *)
Theorem set_same_value_refreshes_only_last_accessed {V : Type}
    (gh : V -> string) (cs : V -> Z) (cfg : CacheConfig) (now1 now2 : Z)
    (k : string) (v : V) (o1 o2 : SetOptions) (st : CacheState (V := V))
    (Hon : enabled cfg = true) (Hforce : forceUpdate o2 = false) :
  let st1 := snd (cache_set gh cs cfg now1 k v o1 st) in
  let r2 := cache_set gh cs cfg now2 k v o2 st1 in
  exists e, map_get k (memoryCache st1) = Some e
  /\ fst r2 = true
  /\ map_get k (memoryCache (snd r2))
     = Some (mkEntry (key e) (value e) (hash e) (timestamp e) now2 (accessCount e)
               (ttl e) (esize e) (meta_fileSize e) (meta_filePath e)
               (meta_version e) (meta_tags e))
  /\ (forall k', k' <> k -> map_get k' (memoryCache (snd r2)) = map_get k' (memoryCache st1))
  /\ length (memoryCache (snd r2)) = length (memoryCache st1)
  /\ totalSize (snd r2) = totalSize st1 /\ entryCount (snd r2) = entryCount st1
  /\ hits (snd r2) = hits st1 /\ misses (snd r2) = misses st1.
Proof.
  cbv zeta.
  destruct (cache_set_stores gh cs cfg now1 k v o1 st Hon) as [e [Hg Hh]].
  exists e. rewrite (cache_set_short_circuit gh cs cfg now2 k v o2 _ e Hon Hforce Hg Hh).
  simpl. split; [exact Hg|]. split; [reflexivity|].
  split; [apply map_get_set_eq|].
  split; [intros k' Hne; apply map_get_set_neq; exact Hne|].
  split; [apply (map_set_length_present _ _ e); exact Hg|].
  repeat split.
Qed.

Lemma set_same_value_refreshes_only_last_accessed_witness :
  enabled defaultCacheConfig = true /\ forceUpdate noOptions = false /\
  let st1 := snd (cache_set strHash strSize defaultCacheConfig 1 "k" "X" noOptions emptyCache) in
  let r2 := cache_set strHash strSize defaultCacheConfig 2 "k" "X" noOptions st1 in
  exists e, map_get "k" (memoryCache st1) = Some e
  /\ fst r2 = true
  /\ map_get "k" (memoryCache (snd r2))
     = Some (mkEntry (key e) (value e) (hash e) (timestamp e) 2 (accessCount e)
               (ttl e) (esize e) (meta_fileSize e) (meta_filePath e)
               (meta_version e) (meta_tags e))
  /\ (forall k', k' <> "k" -> map_get k' (memoryCache (snd r2)) = map_get k' (memoryCache st1))
  /\ length (memoryCache (snd r2)) = length (memoryCache st1)
  /\ totalSize (snd r2) = totalSize st1 /\ entryCount (snd r2) = entryCount st1
  /\ hits (snd r2) = hits st1 /\ misses (snd r2) = misses st1.
Proof.
  split; [reflexivity|]. split; [reflexivity|].
  exact (set_same_value_refreshes_only_last_accessed strHash strSize defaultCacheConfig
           1 2 "k" "X" noOptions noOptions emptyCache eq_refl eq_refl).
Defined.

(** C10. With [enabled = false], [get] returns [null] and [set] returns
    [false], and neither touches the cache state. *)
Theorem cache_disabled_is_noop {V : Type} (gh : V -> string) (cs : V -> Z)
    (cfg : CacheConfig) (Hoff : enabled cfg = false) :
  forall (now : Z) (k : string) (v : V) (o : SetOptions) (st : CacheState (V := V)),
    cache_get cfg now k st = (None, st) /\ cache_set gh cs cfg now k v o st = (false, st).
Proof.
  intros now k v o st. unfold cache_get, cache_set. rewrite Hoff. split; reflexivity.
Qed.

Lemma cache_disabled_is_noop_witness :
  enabled disabledCacheConfig = false /\
  cache_get disabledCacheConfig 5 "k" emptyCache = (None, emptyCache) /\
  cache_set strHash strSize disabledCacheConfig 5 "k" "X" noOptions emptyCache
    = (false, emptyCache).
Proof.
  split; [reflexivity|].
  exact (cache_disabled_is_noop strHash strSize disabledCacheConfig eq_refl
           5 "k" "X" noOptions emptyCache).
Defined.

Section EvictionProofs.

Context {V : Type}.
Implicit Types (m : list (string * CacheEntry (V := V))) (st : CacheState (V := V)).

Lemma insertByKey_perm (f : CacheEntry -> Z) (x : string * CacheEntry) m :
  Permutation (insertByKey f x m) (x :: m).
Proof.
  induction m as [|y m IH]; simpl; [reflexivity|].
  destruct (f (snd x) <=? f (snd y)); [reflexivity|].
  rewrite IH. apply perm_swap.
Qed.

Lemma sortByKey_perm (f : CacheEntry -> Z) m : Permutation (sortByKey f m) m.
Proof.
  induction m as [|x m IH]; simpl; [reflexivity|].
  rewrite insertByKey_perm. apply perm_skip, IH.
Qed.

Lemma insertByKey_sorted (f : CacheEntry -> Z) (x : string * CacheEntry) m :
  Sorted (fun a b => f (snd a) <= f (snd b)) m ->
  Sorted (fun a b => f (snd a) <= f (snd b)) (insertByKey f x m).
Proof.
  induction m as [|y m IH]; intros Hs; simpl.
  - repeat constructor.
  - destruct (f (snd x) <=? f (snd y)) eqn:E.
    + constructor; [exact Hs|]. constructor. apply Z.leb_le; exact E.
    + apply Z.leb_gt in E. inversion Hs as [|? ? Hs' Hhd]; subst.
      constructor; [apply IH; exact Hs'|].
      destruct m as [|z m']; simpl.
      * constructor; lia.
      * destruct (f (snd x) <=? f (snd z)); constructor; [lia|].
        inversion Hhd; assumption.
Qed.

Lemma sortByKey_sorted (f : CacheEntry -> Z) m :
  Sorted (fun a b => f (snd a) <= f (snd b)) (sortByKey f m).
Proof.
  induction m as [|x m IH]; simpl; [constructor|].
  apply insertByKey_sorted, IH.
Qed.

Lemma evictLoop_prefix cfg total (sorted : list (string * CacheEntry)) :
  forall m freed, exists n,
    evictLoop cfg total sorted m freed = deleteAll m (firstn n sorted)
    /\ (n = length sorted \/ underTarget cfg total (freed + sumSizes (firstn n sorted)) = true)
    /\ (forall j, (j < n)%nat -> underTarget cfg total (freed + sumSizes (firstn j sorted)) = false).
Proof.
  induction sorted as [|[k e] rest IH]; intros m freed; simpl.
  - exists O. simpl. split; [reflexivity|]. split; [left; reflexivity|]. intros j Hj; lia.
  - destruct (underTarget cfg total freed) eqn:U.
    + exists O. simpl. split; [reflexivity|].
      split; [right; rewrite Z.add_0_r; exact U|]. intros j Hj; lia.
    + destruct (IH (map_delete k m) (freed + esize e)) as [n [Hev [Hstop Hmin]]].
      exists (S n). simpl. split; [exact Hev|]. split.
      * destruct Hstop as [Hl | Hu]; [left; rewrite Hl; reflexivity|].
        right. rewrite Z.add_assoc. exact Hu.
      * intros [|j] Hj; simpl.
        -- rewrite Z.add_0_r. exact U.
        -- rewrite Z.add_assoc. apply Hmin. lia.
Qed.

End EvictionProofs.

(** C7 (failing input). A cache limited to one entry holds ["a"]; a
    [set] of ["b"] finds no space (the entry count is at the limit),
    [makeSpace] evicts nothing because it looks only at bytes and the
    cached bytes are already below 80% of the 1 MB budget, and the insert
    leaves two entries totalling 6 bytes: far below 0.8 x budget, and
    over the entry budget. *)
Lemma eviction_count_overflow_below_target :
  let st1 := snd (cache_set strHash strSize tinyCacheConfig 1 "a" "X" noOptions emptyCache) in
  let st2 := snd (cache_set strHash strSize tinyCacheConfig 2 "b" "Y" noOptions st1) in
  hasSpace tinyCacheConfig st1 (strSize "Y") = false
  /\ totalSize st2 = 6
  /\ 5 * totalSize st2 < 4 * maxSizeBytes tinyCacheConfig
  /\ entryCount st2 = 2 /\ maxEntries tinyCacheConfig = 1.
Proof. vm_compute. repeat split; reflexivity. Qed.

(** X24. [makeSpace] orders the entries by the policy ([lru]: ascending
    [lastAccessed]; [lfu]: ascending [accessCount]; [ttl]: ascending
    [timestamp + ttl]), a permutation of the cache; it then removes the
    shortest prefix of that order after which [stats.totalSize] minus the
    freed bytes is at most 80% of the byte budget (the whole order if no
    prefix gets there), and refreshes the statistics. [set] of a new key
    that finds no space runs [makeSpace] and then inserts the entry with
    no further check. *)
Theorem makeSpace_evicts_shortest_policy_prefix {V : Type} (cfg : CacheConfig)
    (st : CacheState (V := V)) :
  let sorted := sortByKey (evictionKey cfg) (memoryCache st) in
  Permutation sorted (memoryCache st)
  /\ (strategy_c cfg = lru ->
      Sorted (fun a b => lastAccessed (snd a) <= lastAccessed (snd b)) sorted)
  /\ (strategy_c cfg = lfu ->
      Sorted (fun a b => accessCount (snd a) <= accessCount (snd b)) sorted)
  /\ (strategy_c cfg = ttl_policy ->
      Sorted (fun a b => timestamp (snd a) + ttl (snd a) <= timestamp (snd b) + ttl (snd b))
        sorted)
  /\ (exists n,
       memoryCache (makeSpace cfg st) = deleteAll (memoryCache st) (firstn n sorted)
       /\ (n = length sorted
           \/ underTarget cfg (totalSize st) (sumSizes (firstn n sorted)) = true)
       /\ (forall j, (j < n)%nat ->
             underTarget cfg (totalSize st) (sumSizes (firstn j sorted)) = false)
       /\ totalSize (makeSpace cfg st) = sumSizes (memoryCache (makeSpace cfg st)))
  /\ (forall (gh : V -> string) (cs : V -> Z) now k v o,
        enabled cfg = true -> map_get k (memoryCache st) = None ->
        hasSpace cfg st (cs v) = false ->
        exists e, cache_set gh cs cfg now k v o st
                  = (true, updateStats (withCache (makeSpace cfg st)
                                          (map_set k e (memoryCache (makeSpace cfg st)))))
                  /\ esize e = cs v).
Proof.
  cbv zeta. split; [apply sortByKey_perm|].
  split; [intros Hs; unfold evictionKey; rewrite Hs; apply sortByKey_sorted|].
  split; [intros Hs; unfold evictionKey; rewrite Hs; apply sortByKey_sorted|].
  split; [intros Hs; unfold evictionKey; rewrite Hs;
          apply (sortByKey_sorted (fun e => timestamp e + ttl e))|].
  split.
  - destruct (evictLoop_prefix cfg (totalSize st)
                (sortByKey (evictionKey cfg) (memoryCache st)) (memoryCache st) 0)
      as [n [Hev [Hstop Hmin]]].
    exists n. unfold makeSpace. simpl. rewrite Hev.
    split; [reflexivity|]. split; [|split; [|reflexivity]].
    + destruct Hstop as [Hl | Hu]; [left; exact Hl | right; exact Hu].
    + intros j Hj. apply Hmin. exact Hj.
  - intros gh cs now k v o Hen Hk Hsp. unfold cache_set. rewrite Hen, Hk. simpl.
    rewrite Hsp. eexists. split; [reflexivity|reflexivity].
Qed.

(* ------------------------------------------------------------------ *)
(** * Further properties of the pipeline *)

(** ** Diff parser *)

Lemma parseLine_inv (st : ParseState) (line : string) :
  parseInv st -> parseInv (parseLine st line).
Proof.
  intros [Hacc Hcur]. unfold parseLine.
  destruct (hunkHeader line) as [c|].
  - split; [|intros s ty H; simpl in *; inversion H; subst; lia].
    destruct (currentChunk st) as [[s ty]|] eqn:Hc; [|exact Hacc].
    apply Forall_app; split; [exact Hacc|].
    specialize (Hcur s ty eq_refl). repeat constructor; simpl; lia.
  - destruct (JS.startsWith line "diff " || JS.startsWith line "index "
              || JS.startsWith line "---" || JS.startsWith line "+++");
      [exact (conj Hacc Hcur)|].
    destruct (currentChunk st) as [[s ty]|] eqn:Hc;
      [|split; [exact Hacc|]; rewrite Hc; exact Hcur].
    specialize (Hcur s ty eq_refl).
    destruct (JS.startsWith line "+" && negb (JS.startsWith line "+++"));
      [split; [exact Hacc|]; intros s' ty' H; simpl in *; inversion H; subst; lia|].
    destruct (JS.startsWith line "-" && negb (JS.startsWith line "---"));
      [split; [exact Hacc|]; intros s' ty' H; simpl in *; inversion H; subst; lia|].
    destruct (JS.startsWith line " " || String.eqb line "");
      [split; [exact Hacc|]; simpl; intros s' ty' H; simpl in H; inversion H; subst; lia|].
    split; [exact Hacc|]. intros s' ty' H. rewrite Hc in H. inversion H; subst. exact Hcur.
Qed.

Lemma fold_parseLine_inv (lines : list string) (st : ParseState) :
  parseInv st -> parseInv (fold_left parseLine lines st).
Proof.
  revert st; induction lines as [|l lines IH]; intros st H; simpl; [exact H|].
  apply IH, parseLine_inv, H.
Qed.

(** X1. Every region the diff parser returns has
    [size = endLine - startLine + 1] and a non-negative size. *)
Theorem parseDiffChunks_regions_well_formed (diffOutput : string) :
  Forall chunkWellFormed (parseDiffChunks diffOutput).
Proof.
  unfold parseDiffChunks. destruct (is_blank diffOutput); [constructor|].
  destruct (fold_parseLine_inv (JS.split_nl diffOutput) (mkPS None 0 []))
    as [Hacc Hcur]; [split; [constructor | intros s ty H; discriminate]|].
  unfold finishChunks.
  destruct (currentChunk _) as [[s ty]|] eqn:Hc; [|exact Hacc].
  apply Forall_app; split; [exact Hacc|].
  specialize (Hcur s ty eq_refl). repeat constructor; simpl; lia.
Qed.

Lemma parseLine_starts (st : ParseState) (line : string) :
  parseStarts (parseLine st line) = app (parseStarts st) (hunkStarts [line]).
Proof.
  unfold parseStarts, parseLine, hunkStarts; simpl.
  destruct (hunkHeader line) as [c|]; simpl.
  - destruct (currentChunk st) as [[s ty]|]; simpl;
      rewrite ?map_app, <- ?app_assoc; reflexivity.
  - rewrite !app_nil_r.
    destruct (JS.startsWith line "diff " || JS.startsWith line "index "
              || JS.startsWith line "---" || JS.startsWith line "+++"); [reflexivity|].
    destruct (currentChunk st) as [[s ty]|] eqn:Hc; [|rewrite Hc; reflexivity].
    destruct (JS.startsWith line "+" && negb (JS.startsWith line "+++")); [reflexivity|].
    destruct (JS.startsWith line "-" && negb (JS.startsWith line "---")); [reflexivity|].
    destruct (JS.startsWith line " " || String.eqb line ""); simpl; rewrite ?Hc; reflexivity.
Qed.

Lemma fold_parseLine_starts (lines : list string) (st : ParseState) :
  parseStarts (fold_left parseLine lines st) = app (parseStarts st) (hunkStarts lines).
Proof.
  revert st; induction lines as [|l lines IH]; intros st; simpl.
  - rewrite app_nil_r; reflexivity.
  - rewrite IH, parseLine_starts, <- app_assoc.
    unfold hunkStarts; simpl; rewrite app_nil_r; reflexivity.
Qed.

(** X2. For a non-blank diff, the parser returns one region per hunk
    header line ([@@ -a,b +c,d @@]), in order, each starting at the
    header's new-file line [c]; a diff without hunk headers gives no
    region. *)
Theorem parseDiffChunks_one_region_per_hunk (diffOutput : string)
    (Hnb : is_blank diffOutput = false) :
  map startLine (parseDiffChunks diffOutput) = hunkStarts (JS.split_nl diffOutput).
Proof.
  unfold parseDiffChunks. rewrite Hnb.
  pose proof (fold_parseLine_starts (JS.split_nl diffOutput) (mkPS None 0 [])) as H.
  unfold parseStarts in H at 2. simpl in H. rewrite <- H.
  unfold finishChunks, parseStarts.
  destruct (currentChunk _) as [[s ty]|]; rewrite ?map_app; simpl; rewrite ?app_nil_r;
    reflexivity.
Qed.

Lemma parseDiffChunks_one_region_per_hunk_witness :
  is_blank (JS.join_nl ["@@ -1,2 +1,3 @@"; " a"; "+b"; "@@ -9 +10 @@"; "-c"]) = false /\
  map startLine (parseDiffChunks (JS.join_nl ["@@ -1,2 +1,3 @@"; " a"; "+b"; "@@ -9 +10 @@"; "-c"]))
  = hunkStarts (JS.split_nl (JS.join_nl ["@@ -1,2 +1,3 @@"; " a"; "+b"; "@@ -9 +10 @@"; "-c"])).
Proof.
  split; [reflexivity|]. apply parseDiffChunks_one_region_per_hunk. reflexivity.
Defined.

(** ** Affected-block extraction *)

Lemma indexFrom_In {A} (i n : Z) (x : A) (l : list A) :
  In (n, x) (indexFrom i l) -> exists j, n = i + Z.of_nat j /\ nth_error l j = Some x.
Proof.
  revert i; induction l as [|y l IH]; intros i H; simpl in H; [contradiction|].
  destruct H as [H|H].
  - inversion H; subst. exists O. split; [lia|reflexivity].
  - destruct (IH _ H) as [j [-> Hj]]. exists (S j). split; [lia|exact Hj].
Qed.

Lemma skipn_indexFrom_In {A} (a i : Z) (x : A) (m : nat) (l : list A) :
  In (i, x) (skipn m (indexFrom a l)) -> a + Z.of_nat m <= i.
Proof.
  revert a m; induction l as [|y l IH]; intros a m H.
  - rewrite skipn_nil in H; contradiction.
  - destruct m as [|m]; simpl in H.
    + destruct H as [H|H].
      * inversion H; subst; lia.
      * destruct (indexFrom_In _ _ _ _ H) as [j [-> _]]; lia.
    + specialize (IH (a + 1) m H). lia.
Qed.

Lemma findBlockStart_nonneg (lines : list string) (s : Z) : 0 <= findBlockStart lines s.
Proof.
  unfold findBlockStart.
  destruct (scanUp lines (S (Z.to_nat s)) (s - 1) <? 0) eqn:E; [lia|].
  apply Z.ltb_ge in E; exact E.
Qed.

Lemma nth_error_js_slice {A} (l : list A) (b e : Z) (j : nat) (x : A) :
  0 <= b -> nth_error (js_slice l b e) j = Some x ->
  nth_error l (Z.to_nat b + j) = Some x.
Proof.
  intros Hb H. unfold js_slice in H.
  rewrite nth_error_firstn in H. destruct (Nat.ltb _ _) in H; [|discriminate].
  rewrite nth_error_skipn in H.
  assert (Hn : (b <? 0) = false) by (apply Z.ltb_ge; lia). rewrite Hn in H.
  destruct (Z.le_ge_cases b (Z.of_nat (length l))) as [Hle|Hge].
  - rewrite Z.min_l in H by exact Hle. exact H.
  - rewrite Z.min_r in H by lia. rewrite Nat2Z.id in H.
    assert (Hnone : nth_error l (length l + j) = None) by (apply nth_error_None; lia).
    congruence.
Qed.

Lemma nth_error_skipn_cons {A} (l : list A) (n : nat) (t : A) :
  nth_error l n = Some t -> exists r, skipn n l = t :: r.
Proof.
  revert n; induction l as [|y l IH]; intros n H; [destruct n; discriminate|].
  destruct n as [|n]; simpl in H.
  - inversion H; subst. exists l. reflexivity.
  - exact (IH n H).
Qed.

Lemma braceScan_lower (ls : list (Z * string)) (lo : Z) :
  (forall i x, In (i, x) ls -> lo <= i) ->
  forall cnt found be, lo <= be -> lo <= braceScan ls cnt found be.
Proof.
  induction ls as [|[i line] ls IH]; intros Hls cnt found be Hbe; simpl; [exact Hbe|].
  assert (Hi : lo <= i) by (apply (Hls i line); left; reflexivity).
  assert (Hrest : forall i' x, In (i', x) ls -> lo <= i')
    by (intros i' x H; apply (Hls i' x); right; exact H).
  destruct (String.eqb line ""); [apply IH; assumption|].
  destruct (braceChars (list_ascii_of_string line) cnt found) as [[cnt' found'] closed].
  assert (Hbe' : lo <= (if closed then i else be)) by (destruct closed; lia).
  destruct (found' && (cnt' =? 0)); [exact Hbe'|apply IH; assumption].
Qed.

Lemma scanUp_finds (lines : list string) (j : Z) (Hj0 : 0 <= j)
    (Hd : isBlockStart lines j = true) :
  forall fuel i, j <= i -> (Z.to_nat (i - j) < fuel)%nat ->
  (forall k, j < k <= i -> isBlockStart lines k = false) ->
  scanUp lines fuel i = j.
Proof.
  induction fuel as [|f IH]; intros i Hi Hf Hnone; [lia|].
  simpl. assert (Hlt : (i <? 0) = false) by (apply Z.ltb_ge; lia). rewrite Hlt.
  destruct (Z.eq_dec i j) as [->|Hne]; [rewrite Hd; reflexivity|].
  rewrite (Hnone i) by lia.
  apply IH; [lia|lia|]. intros k Hk; apply Hnone; lia.
Qed.

(** X3. Every row of the block [findContainingBlock] returns is a line
    of the file with its 1-based number: a row [(n, t)] has
    [1 <= n <= lines.length] and [t = lines[n - 1]]. *)
Theorem findContainingBlock_rows_are_file_lines (lines : list string) (s e n : Z) (t : string)
    (Hin : In (n, t) (findContainingBlock lines s e)) :
  1 <= n <= Z.of_nat (length lines) /\ nth_error lines (Z.to_nat (n - 1)) = Some t.
Proof.
  unfold findContainingBlock in Hin.
  pose proof (findBlockStart_nonneg lines s) as Hb.
  destruct (indexFrom_In _ _ _ _ Hin) as [j [Hn Hj]].
  apply nth_error_js_slice in Hj; [|exact Hb].
  assert (Hidx : Z.to_nat (n - 1) = (Z.to_nat (findBlockStart lines s) + j)%nat) by lia.
  rewrite Hidx. split; [|exact Hj].
  assert (Hlt : (Z.to_nat (findBlockStart lines s) + j < length lines)%nat)
    by (apply nth_error_Some; congruence).
  lia.
Qed.

Lemma findContainingBlock_rows_are_file_lines_witness :
  In (2, "  x;") (findContainingBlock ["function f() {"; "  x;"; "}"] 2 2) /\
  1 <= 2 <= Z.of_nat (length ["function f() {"; "  x;"; "}"]) /\
  nth_error ["function f() {"; "  x;"; "}"] (Z.to_nat (2 - 1)) = Some "  x;".
Proof.
  split; [vm_compute; right; left; reflexivity|].
  apply (findContainingBlock_rows_are_file_lines _ 2 2 2 "  x;").
  vm_compute; right; left; reflexivity.
Defined.

(** X4. When line [j] (0-based, [j < startLine]) is a declaration line
    and no line between it and the region start is one, the block of
    [findContainingBlock] for a region with [startLine <= endLine]
    begins with that line: its first row is [(j + 1, lines[j])]. *)
Theorem findContainingBlock_starts_at_nearest_declaration (lines : list string) (s e j : Z)
    (Hj : 0 <= j < s) (Hse : s <= e) (Hd : isBlockStart lines j = true)
    (Hnone : forall k, j < k < s -> isBlockStart lines k = false) :
  exists t rest, findContainingBlock lines s e = (j + 1, t) :: rest
                 /\ nth_error lines (Z.to_nat j) = Some t.
Proof.
  assert (Hfb : findBlockStart lines s = j).
  { unfold findBlockStart.
    rewrite (scanUp_finds lines j (proj1 Hj) Hd); [|lia|lia|intros k Hk; apply Hnone; lia].
    assert (Hn : (j <? 0) = false) by (apply Z.ltb_ge; lia). rewrite Hn. reflexivity. }
  assert (Ht : exists t, nth_error lines (Z.to_nat j) = Some t).
  { unfold isBlockStart in Hd. destruct (nth_error lines (Z.to_nat j)) as [t|];
      [exists t; reflexivity|discriminate]. }
  destruct Ht as [t Ht]. exists t.
  pose proof (nth_error_Some lines (Z.to_nat j)) as [Hlen _].
  assert (Hlt : (Z.to_nat j < length lines)%nat) by (apply Hlen; congruence).
  unfold findContainingBlock. rewrite Hfb.
  set (be := braceScan _ 0 false (e - 1)).
  assert (Hbe : j <= be).
  { apply braceScan_lower; [|lia].
    intros i x H. apply skipn_indexFrom_In in H. lia. }
  destruct (nth_error_skipn_cons lines (Z.to_nat j) t Ht) as [r Hr].
  unfold js_slice.
  assert (H1 : (j <? 0) = false) by (apply Z.ltb_ge; lia).
  assert (H2 : (be + 1 <? 0) = false) by (apply Z.ltb_ge; lia).
  rewrite H1, H2, (Z.min_l j) by lia. rewrite Hr.
  destruct (Z.to_nat (Z.min (be + 1) (Z.of_nat (length lines)) - j)) as [|k] eqn:Hk; [lia|].
  simpl. eexists; split; [reflexivity|exact Ht].
Qed.

Lemma findContainingBlock_starts_at_nearest_declaration_witness :
  let lines := ["// c"; "function f() {"; "  x;"; "}"] in
  (0 <= 1 < 3 /\ 3 <= 3 /\ isBlockStart lines 1 = true
   /\ (forall k, 1 < k < 3 -> isBlockStart lines k = false)) /\
  exists t rest, findContainingBlock lines 3 3 = (1 + 1, t) :: rest
                 /\ nth_error lines (Z.to_nat 1) = Some t.
Proof.
  intros lines.
  assert (Hnone : forall k, 1 < k < 3 -> isBlockStart lines k = false).
  { intros k Hk. assert (k = 2) as -> by lia. vm_compute. reflexivity. }
  split; [split; [lia|split; [lia|split; [vm_compute; reflexivity|exact Hnone]]]|].
  apply findContainingBlock_starts_at_nearest_declaration; [lia|lia|vm_compute; reflexivity|].
  exact Hnone.
Defined.

(** ** Context window *)

Lemma zrange_In (a b i : Z) : In i (zrange a b) <-> a <= i <= b.
Proof.
  unfold zrange. rewrite in_map_iff. split.
  - intros [k [<- Hk]]. apply in_seq in Hk. lia.
  - intros Hi. exists (Z.to_nat (i - a)). split; [lia|]. apply in_seq. lia.
Qed.

Lemma fold_setAddZ_In (l s : list Z) (x : Z) :
  In x (fold_left setAddZ l s) <-> In x s \/ In x l.
Proof.
  revert s; induction l as [|y l IH]; intros s; simpl; [tauto|].
  rewrite IH. unfold setAddZ.
  destruct (existsb (Z.eqb y) s) eqn:E.
  - apply existsb_exists in E as [z [Hz Hyz]]. apply Z.eqb_eq in Hyz; subst z.
    split; [tauto|]. intros [H|[H|H]]; [tauto|subst; tauto|tauto].
  - rewrite in_app_iff; simpl. split; intros H; intuition.
Qed.

Lemma fold_setAddZ_NoDup (l s : list Z) : NoDup s -> NoDup (fold_left setAddZ l s).
Proof.
  revert s; induction l as [|y l IH]; intros s Hs; simpl; [exact Hs|].
  apply IH. unfold setAddZ.
  destruct (existsb (Z.eqb y) s) eqn:E; [exact Hs|].
  apply NoDup_app; [exact Hs|constructor; [intros []|constructor]|].
  intros x Hx [Hy|[]]; subst x.
  assert (existsb (Z.eqb y) s = true) by (apply existsb_exists; exists y; split;
    [exact Hx|apply Z.eqb_refl]).
  congruence.
Qed.

Lemma contextLineSet_In (W : Z) (lines : list string) (chunks : list DiffChunk) (i : Z) :
  In i (contextLineSet W lines chunks)
  <-> exists c, In c chunks /\ In i (windowLines W (Z.of_nat (length lines)) c).
Proof.
  unfold contextLineSet.
  assert (G : forall s, In i (fold_left (fun s c =>
                fold_left setAddZ (windowLines W (Z.of_nat (length lines)) c) s) chunks s)
             <-> In i s \/ exists c, In c chunks
                                   /\ In i (windowLines W (Z.of_nat (length lines)) c)).
  { induction chunks as [|c cs IH]; intros s; simpl.
    - split; [tauto|]. intros [H|[c [[] _]]]; exact H.
    - rewrite IH, fold_setAddZ_In. split.
      + intros [[H|H]|[c' [Hc' Hi]]]; [tauto|right; exists c; tauto|right; exists c'; tauto].
      + intros [H|[c' [[Hc'|Hc'] Hi]]]; [tauto|subst; tauto|right; exists c'; tauto]. }
  rewrite G. simpl. tauto.
Qed.

Lemma contextLineSet_NoDup (W : Z) (lines : list string) (chunks : list DiffChunk) :
  NoDup (contextLineSet W lines chunks).
Proof.
  unfold contextLineSet.
  assert (G : forall s, NoDup s -> NoDup (fold_left (fun s c =>
                fold_left setAddZ (windowLines W (Z.of_nat (length lines)) c) s) chunks s)).
  { induction chunks as [|c cs IH]; intros s Hs; simpl; [exact Hs|].
    apply IH, fold_setAddZ_NoDup, Hs. }
  apply G; constructor.
Qed.

Lemma insertZ_perm (x : Z) (l : list Z) : Permutation (insertZ x l) (x :: l).
Proof.
  induction l as [|y l IH]; simpl; [reflexivity|].
  destruct (x <=? y); [reflexivity|].
  rewrite IH. apply perm_swap.
Qed.

Lemma sortZ_perm (l : list Z) : Permutation (sortZ l) l.
Proof.
  induction l as [|x l IH]; simpl; [reflexivity|].
  rewrite insertZ_perm, IH. reflexivity.
Qed.

Lemma insertZ_HdRel (x y : Z) (l : list Z) :
  y < x -> HdRel Z.lt y l -> HdRel Z.lt y (insertZ x l).
Proof.
  intros Hyx Hd. destruct l as [|z l]; simpl; [constructor; exact Hyx|].
  destruct (x <=? z); constructor; [exact Hyx|]. inversion Hd; assumption.
Qed.

Lemma insertZ_sorted (x : Z) (l : list Z) :
  Sorted Z.lt l -> ~ In x l -> Sorted Z.lt (insertZ x l).
Proof.
  induction l as [|y l IH]; intros Hs Hn; simpl; [repeat constructor|].
  inversion Hs as [|? ? Hs' Hd]; subst.
  destruct (x <=? y) eqn:E.
  - apply Z.leb_le in E. assert (x <> y) by (intros ->; apply Hn; left; reflexivity).
    constructor; [exact Hs|]. constructor; lia.
  - apply Z.leb_gt in E. constructor.
    + apply IH; [exact Hs'|]. intros H; apply Hn; right; exact H.
    + apply insertZ_HdRel; assumption.
Qed.

Lemma sortZ_sorted (l : list Z) : NoDup l -> Sorted Z.lt (sortZ l).
Proof.
  induction l as [|x l IH]; intros Hnd; simpl; [constructor|].
  inversion Hnd as [|? ? Hx Hnd']; subst.
  apply insertZ_sorted; [apply IH, Hnd'|].
  intros H. apply Hx. apply (Permutation_in _ (sortZ_perm l)), H.
Qed.

Lemma rowNums_renderRows (lines : list string) (last : Z) (is : list Z) :
  rowNums (renderRows lines last is) = map (fun i => i + 1) is.
Proof.
  revert last; induction is as [|i is IH]; intros last; simpl; [reflexivity|].
  unfold rowNums in *. rewrite flat_map_app.
  destruct (i >? last + 1); simpl; rewrite IH; reflexivity.
Qed.

Lemma renderRows_In (lines : list string) (last : Z) (is : list Z) (n : Z) (t : string) :
  In (Row n t) (renderRows lines last is)
  <-> exists i, In i is /\ n = i + 1 /\ t = lineAt lines i.
Proof.
  revert last; induction is as [|i is IH]; intros last; simpl.
  - split; [intros []|intros [i [[] _]]].
  - rewrite in_app_iff. simpl. rewrite IH.
    assert (HE : ~ In (Row n t) (if i >? last + 1 then [Ellipsis] else [])).
    { destruct (i >? last + 1); simpl; intros H; [destruct H as [H|[]]; discriminate|exact H]. }
    split.
    + intros [H|[H|[i' [Hi' Hn]]]]; [contradiction| |exists i'; tauto].
      inversion H; subst. exists i; tauto.
    + intros [i' [[<-|Hi'] [-> ->]]]; [tauto|]. right; right. exists i'; tauto.
Qed.

Lemma Sorted_lt_map_succ (l : list Z) :
  Sorted Z.lt l -> Sorted Z.lt (map (fun i => i + 1) l).
Proof.
  induction l as [|x l IH]; intros Hs; simpl; [constructor|].
  inversion Hs as [|? ? Hs' Hd]; subst. constructor; [apply IH, Hs'|].
  destruct l as [|y l]; simpl; constructor. inversion Hd; lia.
Qed.

(** X5. When [extractContextWindow] renders rows, their line numbers are
    strictly increasing: the lines come in file order and none is shown
    twice. *)
Theorem extractContextWindow_rows_increasing (W : Z) (diffOutput content : string)
    (rows : list WindowRow)
    (Hout : extractContextWindow W diffOutput content = WindowRows rows) :
  Sorted Z.lt (rowNums rows).
Proof.
  unfold extractContextWindow in Hout.
  destruct (parseDiffChunks diffOutput) as [|c cs]; [discriminate|].
  inversion Hout; subst. rewrite rowNums_renderRows.
  apply Sorted_lt_map_succ, sortZ_sorted, contextLineSet_NoDup.
Qed.

Lemma extractContextWindow_rows_increasing_witness :
  extractContextWindow 1 (JS.join_nl ["@@ -1,1 +2,1 @@"; "+b"; "@@ -5,1 +6,1 @@"; "+f"])
    (JS.join_nl ["a"; "b"; "c"; "d"; "e"; "f"; "g"; "h"])
  = WindowRows [Ellipsis; Row 1 "a"; Row 2 "b"; Row 3 "c"; Ellipsis; Row 5 "e";
                Row 6 "f"; Row 7 "g"; Row 8 "h"] /\
  Sorted Z.lt (rowNums [Ellipsis; Row 1 "a"; Row 2 "b"; Row 3 "c"; Ellipsis; Row 5 "e";
                        Row 6 "f"; Row 7 "g"; Row 8 "h"]).
Proof.
  split; [vm_compute; reflexivity|].
  apply (extractContextWindow_rows_increasing 1
           (JS.join_nl ["@@ -1,1 +2,1 @@"; "+b"; "@@ -5,1 +6,1 @@"; "+f"])
           (JS.join_nl ["a"; "b"; "c"; "d"; "e"; "f"; "g"; "h"])).
  vm_compute; reflexivity.
Defined.

(** X6. When [extractContextWindow] renders rows, a row [(n, t)] is
    shown exactly when [n] is a line of the content ([1 <= n <=
    lines.length], [t = lines[n - 1]]) that lies within [W] lines of some
    region of the diff ([startLine - W <= n <= endLine + W]). *)
Theorem extractContextWindow_rows_exact (W : Z) (diffOutput content : string)
    (rows : list WindowRow)
    (Hout : extractContextWindow W diffOutput content = WindowRows rows) :
  forall n t,
    In (Row n t) rows <->
    (1 <= n <= Z.of_nat (length (JS.split_nl content))
     /\ nth_error (JS.split_nl content) (Z.to_nat (n - 1)) = Some t
     /\ exists c, In c (parseDiffChunks diffOutput)
                  /\ startLine c - W <= n <= endLine c + W).
Proof.
  unfold extractContextWindow in Hout.
  destruct (parseDiffChunks diffOutput) as [|c0 cs] eqn:Hp; [discriminate|].
  inversion Hout; subst rows. intros n t.
  set (lines := JS.split_nl content).
  rewrite renderRows_In. split.
  - intros [i [Hi [-> ->]]].
    apply (Permutation_in _ (sortZ_perm _)) in Hi.
    apply contextLineSet_In in Hi as [c [Hc Hi]].
    unfold windowLines in Hi. apply zrange_In in Hi.
    assert (Hlt : (Z.to_nat i < length lines)%nat) by lia.
    unfold lineAt. replace (Z.to_nat (i + 1 - 1)) with (Z.to_nat i) by lia.
    destruct (nth_error lines (Z.to_nat i)) as [t|] eqn:Ht;
      [|apply nth_error_None in Ht; lia].
    split; [lia|split; [reflexivity|exists c; split; [exact Hc|lia]]].
  - intros [Hn [Ht [c [Hc Hcw]]]].
    exists (n - 1). split; [|split; [lia|]].
    + apply (Permutation_in _ (Permutation_sym (sortZ_perm _))).
      apply contextLineSet_In. exists c. split; [exact Hc|].
      unfold windowLines. apply zrange_In. lia.
    + unfold lineAt. rewrite Ht. reflexivity.
Qed.

Lemma extractContextWindow_rows_exact_witness :
  extractContextWindow 1 (JS.join_nl ["@@ -1,1 +2,1 @@"; "+b"])
    (JS.join_nl ["a"; "b"; "c"; "d"])
  = WindowRows [Ellipsis; Row 1 "a"; Row 2 "b"; Row 3 "c"; Row 4 "d"] /\
  (In (Row 3 "c") [Ellipsis; Row 1 "a"; Row 2 "b"; Row 3 "c"; Row 4 "d"] <->
    (1 <= 3 <= Z.of_nat (length (JS.split_nl (JS.join_nl ["a"; "b"; "c"; "d"])))
     /\ nth_error (JS.split_nl (JS.join_nl ["a"; "b"; "c"; "d"])) (Z.to_nat (3 - 1)) = Some "c"
     /\ exists c, In c (parseDiffChunks (JS.join_nl ["@@ -1,1 +2,1 @@"; "+b"]))
                  /\ startLine c - 1 <= 3 <= endLine c + 1)).
Proof.
  split; [vm_compute; reflexivity|].
  apply (extractContextWindow_rows_exact 1 (JS.join_nl ["@@ -1,1 +2,1 @@"; "+b"])
           (JS.join_nl ["a"; "b"; "c"; "d"])).
  vm_compute; reflexivity.
Defined.

(** ** Choice of the important regions *)

Lemma insertBySizeDesc_perm (x : DiffChunk) (l : list DiffChunk) :
  Permutation (insertBySizeDesc x l) (x :: l).
Proof.
  induction l as [|y l IH]; simpl; [reflexivity|].
  destruct (size y <=? size x); [reflexivity|].
  rewrite IH. apply perm_swap.
Qed.

Lemma sortBySizeDesc_perm (l : list DiffChunk) : Permutation (sortBySizeDesc l) l.
Proof.
  induction l as [|x l IH]; simpl; [reflexivity|].
  rewrite insertBySizeDesc_perm, IH. reflexivity.
Qed.

Lemma insertBySizeDesc_sorted (x : DiffChunk) (l : list DiffChunk) :
  Sorted sizeGe l -> Sorted sizeGe (insertBySizeDesc x l).
Proof.
  induction l as [|y l IH]; intros Hs; simpl; [repeat constructor|].
  inversion Hs as [|? ? Hs' Hd]; subst.
  destruct (size y <=? size x) eqn:E.
  - apply Z.leb_le in E. constructor; [exact Hs|constructor; exact E].
  - apply Z.leb_gt in E. constructor; [apply IH, Hs'|].
    destruct l as [|z l]; simpl; [constructor; unfold sizeGe; lia|].
    destruct (size z <=? size x); constructor; unfold sizeGe; [lia|].
    inversion Hd; assumption.
Qed.

Lemma sortBySizeDesc_sorted (l : list DiffChunk) : Sorted sizeGe (sortBySizeDesc l).
Proof.
  induction l as [|x l IH]; simpl; [constructor|]. apply insertBySizeDesc_sorted, IH.
Qed.

Lemma StronglySorted_app_rel {A} (R : A -> A -> Prop) (a b : list A) :
  StronglySorted R (a ++ b) -> forall x y, In x a -> In y b -> R x y.
Proof.
  induction a as [|z a IH]; intros Hs x y Hx Hy; [contradiction|].
  simpl in Hs. inversion Hs as [|? ? Hs' Hall]; subst.
  destruct Hx as [<-|Hx].
  - rewrite Forall_forall in Hall. apply Hall, in_app_iff. right; exact Hy.
  - exact (IH Hs' x y Hx Hy).
Qed.

(** X7. [selectImportantChunks(chunks, maxCount)] returns
    [min(chunks.length, maxCount)] regions taken from [chunks], and none
    of the regions left out is larger than a region it returns. *)
Theorem selectImportantChunks_keeps_largest (chunks : list DiffChunk) (maxCount : nat) :
  length (selectImportantChunks chunks maxCount) = Nat.min (length chunks) maxCount
  /\ exists rest, Permutation (app (selectImportantChunks chunks maxCount) rest) chunks
       /\ forall x y, In x (selectImportantChunks chunks maxCount) -> In y rest ->
                      size y <= size x.
Proof.
  unfold selectImportantChunks.
  destruct (Nat.leb_spec (length chunks) maxCount) as [Hle|Hgt].
  - split; [lia|]. exists []. rewrite app_nil_r. split; [reflexivity|intros _ _ _ []].
  - pose proof (sortBySizeDesc_perm chunks) as Hp.
    split.
    + rewrite length_firstn, (Permutation_length Hp). lia.
    + exists (skipn maxCount (sortBySizeDesc chunks)).
      rewrite firstn_skipn. split; [exact Hp|].
      intros x y Hx Hy.
      apply (StronglySorted_app_rel sizeGe (firstn maxCount (sortBySizeDesc chunks))
               (skipn maxCount (sortBySizeDesc chunks))); [|exact Hx|exact Hy].
      rewrite firstn_skipn. apply Sorted_StronglySorted; [|apply sortBySizeDesc_sorted].
      intros a b c Hab Hbc. unfold sizeGe in *. lia.
Qed.

(** ** Cache *)

Lemma Permutation_filter_ {A} (f : A -> bool) (l l' : list A) :
  Permutation l l' -> Permutation (filter f l) (filter f l').
Proof.
  induction 1 as [|x l l' _ IH|x y l|l l' l'' _ IH1 _ IH2]; simpl.
  - constructor.
  - destruct (f x); [apply perm_skip|]; exact IH.
  - destruct (f x), (f y); try apply perm_swap; try apply perm_skip; reflexivity.
  - rewrite IH1; exact IH2.
Qed.

Lemma filter_filter_ {A} (f g : A -> bool) (l : list A) :
  filter f (filter g l) = filter (fun x => g x && f x) l.
Proof.
  induction l as [|x l IH]; simpl; [reflexivity|].
  destruct (g x); simpl; [destruct (f x); simpl; rewrite IH; reflexivity|exact IH].
Qed.

Section CacheExtraLemmas.

Context {V : Type}.
Implicit Types (m : list (string * CacheEntry (V := V))) (st : CacheState (V := V)).

Lemma map_get_delete_eq k m : map_get k (map_delete k m) = None.
Proof.
  induction m as [|[k' e'] m IH]; simpl; [reflexivity|].
  destruct (String.eqb k k') eqn:E; simpl; [exact IH|]. rewrite E. exact IH.
Qed.

Lemma map_get_In k e m : map_get k m = Some e -> In (k, e) m.
Proof.
  induction m as [|[k' e'] m IH]; simpl; [discriminate|].
  destruct (String.eqb k k') eqn:E.
  - intros H; inversion H; subst. apply String.eqb_eq in E; subst. left; reflexivity.
  - intros H; right; exact (IH H).
Qed.

Lemma sumSizes_map_set_same k e e' m :
  map_get k m = Some e -> esize e' = esize e -> sumSizes (map_set k e' m) = sumSizes m.
Proof.
  induction m as [|[k0 e0] m IH]; simpl; [discriminate|].
  destruct (String.eqb k k0); simpl.
  - intros H Hs; inversion H; subst. rewrite Hs. reflexivity.
  - intros H Hs. unfold sumSizes in *; simpl. rewrite (IH H Hs). reflexivity.
Qed.

Lemma keys_unique m p q :
  NoDup (map fst m) -> In p m -> In q m -> fst p = fst q -> p = q.
Proof.
  induction m as [|r m IH]; intros Hnd Hp Hq Hk; [contradiction|].
  simpl in Hnd. inversion Hnd as [|? ? Hr Hnd']; subst.
  destruct Hp as [<-|Hp], Hq as [<-|Hq]; try reflexivity.
  - exfalso; apply Hr. rewrite Hk. apply in_map, Hq.
  - exfalso; apply Hr. rewrite <- Hk. apply in_map, Hp.
  - exact (IH Hnd' Hp Hq Hk).
Qed.

Lemma NoDup_map_filter {A B} (g : A -> B) (f : A -> bool) (l : list A) :
  NoDup (map g l) -> NoDup (map g (filter f l)).
Proof.
  induction l as [|x l IH]; intros Hnd; simpl; [constructor|].
  simpl in Hnd. inversion Hnd as [|? ? Hx Hnd']; subst.
  destruct (f x); simpl; [|exact (IH Hnd')].
  constructor; [|exact (IH Hnd')].
  intros H; apply Hx. apply in_map_iff in H as [y [Hy Hin]].
  apply filter_In in Hin as [Hin _]. rewrite <- Hy. apply in_map, Hin.
Qed.

(** Deleting the keys of [ps] one by one keeps the entries whose key is
    not among them. *)
Lemma deleteAll_filter m ps :
  deleteAll m ps
  = filter (fun p => negb (existsb (fun q => String.eqb (fst p) (fst q)) ps)) m.
Proof.
  unfold deleteAll. revert m; induction ps as [|[k e] ps IH]; intros m; simpl.
  - symmetry. apply forallb_filter_id, forallb_forall. reflexivity.
  - rewrite IH. unfold map_delete. rewrite filter_filter_.
    apply filter_ext. intros [k' e']; simpl.
    rewrite (String.eqb_sym k k'). destruct (String.eqb k' k); reflexivity.
Qed.

Lemma cleanupLoop_fst now es m c :
  fst (cleanupLoop now es m c)
  = filter (fun p => negb (existsb (fun q => String.eqb (fst p) (fst q) && isExpired now (snd q))
                                   es)) m.
Proof.
  revert m c; induction es as [|[k e] es IH]; intros m c; simpl.
  - symmetry. apply forallb_filter_id, forallb_forall. reflexivity.
  - destruct (isExpired now e) eqn:Ex.
    + rewrite IH. unfold map_delete. rewrite filter_filter_.
      apply filter_ext. intros [k' e']; simpl.
      rewrite (String.eqb_sym k k'). destruct (String.eqb k' k); reflexivity.
    + rewrite IH. apply filter_ext. intros [k' e']; simpl.
      rewrite andb_false_r. reflexivity.
Qed.

Lemma cleanupLoop_snd now es m c :
  snd (cleanupLoop now es m c) = c + Z.of_nat (length (filter (fun p => isExpired now (snd p)) es)).
Proof.
  revert m c; induction es as [|[k e] es IH]; intros m c; simpl; [lia|].
  destruct (isExpired now e); simpl; rewrite IH; lia.
Qed.

(** With distinct keys, the cleanup loop over the map keeps exactly the
    entries that are not expired. *)
Lemma cleanupLoop_self now m c :
  NoDup (map fst m) ->
  fst (cleanupLoop now m m c) = filter (fun p => negb (isExpired now (snd p))) m.
Proof.
  intros Hnd. rewrite cleanupLoop_fst. apply filter_ext_in. intros [k e] Hin. simpl. f_equal.
  destruct (isExpired now e) eqn:Ex.
  - apply existsb_exists. exists (k, e). split; [exact Hin|]. simpl.
    rewrite String.eqb_refl, Ex. reflexivity.
  - apply Bool.not_true_is_false. intros H. apply existsb_exists in H as [[k' e'] [Hin' H]].
    simpl in H. apply andb_true_iff in H as [Hk He]. apply String.eqb_eq in Hk.
    assert (Heq : (k, e) = (k', e')) by (apply (keys_unique m); assumption).
    inversion Heq; subst. congruence.
Qed.

Lemma map_set_NoDup k e m : NoDup (map fst m) -> NoDup (map fst (map_set k e m)).
Proof.
  induction m as [|[k0 e0] m IH]; intros Hnd; simpl; [repeat constructor; intros []|].
  simpl in Hnd. inversion Hnd as [|? ? Hk0 Hnd']; subst.
  destruct (String.eqb k k0) eqn:E; simpl.
  - apply String.eqb_eq in E; subst. constructor; assumption.
  - constructor; [|exact (IH Hnd')].
    intros H. apply in_map_iff in H as [[k1 e1] [Hk1 Hin]]. simpl in Hk1; subst k1.
    assert (Hin' : In k0 (map fst ((k, e) :: m))).
    { clear IH Hnd Hnd' Hk0. induction m as [|[k2 e2] m IHm]; simpl in Hin.
      - destruct Hin as [Hin|[]]. inversion Hin; subst. rewrite String.eqb_refl in E.
        discriminate.
      - destruct (String.eqb k k2) eqn:E2; simpl in Hin.
        + destruct Hin as [Hin|Hin]; [inversion Hin; subst; rewrite String.eqb_refl in E;
            discriminate|]. right; right. apply in_map_iff. exists (k0, e1); auto.
        + destruct Hin as [Hin|Hin]; [inversion Hin; subst; right; left; reflexivity|].
          destruct (IHm Hin) as [H|H]; [left; exact H|right; right; exact H]. }
    destruct Hin' as [H|H]; [simpl in H; subst; rewrite String.eqb_refl in E; discriminate|].
    contradiction.
Qed.

Lemma map_get_None_set_app k e m :
  map_get k m = None -> map_set k e m = app m [(k, e)].
Proof.
  induction m as [|[k0 e0] m IH]; simpl; [reflexivity|].
  destruct (String.eqb k k0); [discriminate|]. intros H; rewrite (IH H); reflexivity.
Qed.

Lemma map_get_None_notin k m : ~ In k (map fst m) -> map_get k m = None.
Proof.
  induction m as [|[k0 e0] m IH]; intros Hn; simpl; [reflexivity|].
  destruct (String.eqb k k0) eqn:E.
  - apply String.eqb_eq in E; subst. exfalso; apply Hn; left; reflexivity.
  - apply IH. intros H; apply Hn; right; exact H.
Qed.

End CacheExtraLemmas.

Section CacheSpecLemmas.

Context {V : Type}.
Implicit Types (m : list (string * CacheEntry (V := V))) (st : CacheState (V := V)).

Lemma updateStats_consistent st : statsConsistent (updateStats st).
Proof. split; reflexivity. Qed.

Lemma recordMiss_consistent st : statsConsistent st -> statsConsistent (recordMiss st).
Proof. intros H; exact H. Qed.

Lemma recordHit_consistent st : statsConsistent st -> statsConsistent (recordHit st).
Proof. intros H; exact H. Qed.

Lemma withCache_set_consistent st k e e' :
  statsConsistent st -> map_get k (memoryCache st) = Some e -> esize e' = esize e ->
  statsConsistent (withCache st (map_set k e' (memoryCache st))).
Proof.
  intros [H1 H2] Hg Hs. split; simpl.
  - rewrite H1. symmetry. exact (sumSizes_map_set_same _ _ _ _ Hg Hs).
  - rewrite H2. rewrite (map_set_length_present _ _ _ _ Hg). reflexivity.
Qed.

Lemma cache_delete_consistent k st : statsConsistent st -> statsConsistent (cache_delete k st).
Proof.
  intros Hc. unfold cache_delete.
  destruct (map_get k (memoryCache st)); [apply updateStats_consistent|exact Hc].
Qed.

Lemma cache_delete_get k st : map_get k (memoryCache (cache_delete k st)) = None.
Proof.
  unfold cache_delete. destruct (map_get k (memoryCache st)) eqn:Hg; [|exact Hg].
  apply map_get_delete_eq.
Qed.

Lemma cleanupLoop_none_expired now es m c :
  filter (fun p => isExpired now (snd p)) es = [] -> fst (cleanupLoop now es m c) = m.
Proof.
  revert m c; induction es as [|[k e] es IH]; intros m c H; simpl; [reflexivity|].
  simpl in H. destruct (isExpired now e); [discriminate|]. apply IH, H.
Qed.

Lemma cache_cleanup_spec now st :
  memoryCache (snd (cache_cleanup now st)) = fst (cleanupLoop now (memoryCache st) (memoryCache st) 0)
  /\ fst (cache_cleanup now st)
     = Z.of_nat (length (filter (fun p => isExpired now (snd p)) (memoryCache st)))
  /\ (statsConsistent st -> statsConsistent (snd (cache_cleanup now st))).
Proof.
  unfold cache_cleanup.
  pose proof (cleanupLoop_snd now (memoryCache st) (memoryCache st) 0) as Hs.
  pose proof (cleanupLoop_none_expired now (memoryCache st) (memoryCache st) 0) as Hn.
  destruct (cleanupLoop now (memoryCache st) (memoryCache st) 0) as [m c]. simpl in *.
  split; [destruct (c >? 0); reflexivity|]. split; [lia|].
  intros Hc. destruct (c >? 0) eqn:Hgt; [apply updateStats_consistent|].
  rewrite Z.gtb_ltb, Z.ltb_ge in Hgt.
  destruct (filter (fun p => isExpired now (snd p)) (memoryCache st)) eqn:Hf;
    [|simpl in Hs; lia].
  rewrite (Hn eq_refl). exact Hc.
Qed.

Lemma load_fold_app now es m :
  NoDup (map fst es) -> (forall k, In k (map fst es) -> ~ In k (map fst m)) ->
  fold_left (fun m p => if isExpired now (snd p) then m else map_set (fst p) (snd p) m) es m
  = app m (filter (fun p => negb (isExpired now (snd p))) es).
Proof.
  revert m; induction es as [|[k e] es IH]; intros m Hnd Hdis; simpl; [rewrite app_nil_r; reflexivity|].
  simpl in Hnd. inversion Hnd as [|? ? Hk Hnd']; subst.
  destruct (isExpired now e); simpl.
  - apply IH; [exact Hnd'|]. intros k' Hk'. apply Hdis. right; exact Hk'.
  - rewrite (map_get_None_set_app k e m) by (apply map_get_None_notin, Hdis; left; reflexivity).
    rewrite IH; [rewrite <- app_assoc; reflexivity|exact Hnd'|].
    intros k' Hk' Hin. rewrite map_app, in_app_iff in Hin. destruct Hin as [Hin|[Hin|[]]].
    + apply (Hdis k'); [right; exact Hk'|exact Hin].
    + simpl in Hin; subst. contradiction.
Qed.

Lemma NoDup_app_disjoint {A} (a b : list A) (x : A) :
  NoDup (app a b) -> In x a -> In x b -> False.
Proof.
  induction a as [|y a IH]; intros Hnd Ha Hb; [contradiction|].
  simpl in Hnd. inversion Hnd as [|? ? Hy Hnd']; subst.
  destruct Ha as [<-|Ha]; [apply Hy, in_app_iff; right; exact Hb|exact (IH Hnd' Ha Hb)].
Qed.

Lemma deleteAll_prefix_perm m (F R : list (string * CacheEntry (V := V))) :
  Permutation m (app F R) -> NoDup (map fst m) -> Permutation (deleteAll m F) R.
Proof.
  intros Hp Hnd. rewrite deleteAll_filter.
  assert (HndFR : NoDup (map fst (app F R))) by
    (apply (Permutation_NoDup (Permutation_map fst Hp)), Hnd).
  rewrite (Permutation_filter_ _ _ _ Hp), filter_app.
  assert (HF : forall G, incl G F ->
            filter (fun p => negb (existsb (fun q => String.eqb (fst p) (fst q)) F)) G = []).
  { induction G as [|x G IHG]; intros Hi; simpl; [reflexivity|].
    assert (Hx : existsb (fun q => String.eqb (fst x) (fst q)) F = true).
    { apply existsb_exists. exists x. split; [apply Hi; left; reflexivity|apply String.eqb_refl]. }
    rewrite Hx. simpl. apply IHG. intros y Hy. apply Hi. right; exact Hy. }
  rewrite (HF F (incl_refl F)). simpl.
  rewrite forallb_filter_id; [reflexivity|].
  apply forallb_forall. intros y Hy.
  apply negb_true_iff, Bool.not_true_is_false. intros H.
  apply existsb_exists in H as [q [Hq Hk]]. apply String.eqb_eq in Hk.
  rewrite map_app in HndFR.
  apply (NoDup_app_disjoint _ _ (fst y) HndFR).
  - rewrite Hk. apply in_map, Hq.
  - apply in_map, Hy.
Qed.

Lemma evictOldEntries_spec cfg (ratio : Q) st :
  NoDup (map fst (memoryCache st)) -> (0 <= ratio <= 1)%Q ->
  fst (evictOldEntries cfg ratio st)
    = Qfloor (inject_Z (Z.of_nat (length (memoryCache st))) * ratio)
  /\ Permutation (memoryCache (snd (evictOldEntries cfg ratio st)))
       (skipn (Z.to_nat (fst (evictOldEntries cfg ratio st)))
          (sortByKey (evictionKey cfg) (memoryCache st)))
  /\ totalSize (snd (evictOldEntries cfg ratio st)) = totalSize st
  /\ entryCount (snd (evictOldEntries cfg ratio st)) = entryCount st.
Proof.
  intros Hnd [Hr0 Hr1].
  set (len := Z.of_nat (length (memoryCache st))).
  set (T := Qfloor (inject_Z len * ratio)).
  assert (HT0 : 0 <= T).
  { unfold T. rewrite <- (Qfloor_Z 0). apply Qfloor_resp_le.
    apply Qmult_le_0_compat; [|exact Hr0].
    unfold Qle; simpl. unfold len. lia. }
  assert (HT1 : T <= len).
  { unfold T. rewrite <- (Qfloor_Z len) at 2. apply Qfloor_resp_le.
    rewrite Qmult_comm. setoid_replace (inject_Z len) with (1 * inject_Z len)%Q at 2
      by ring.
    apply Qmult_le_compat_r; [exact Hr1|]. unfold Qle; simpl. unfold len. lia. }
  pose proof (sortByKey_perm (evictionKey cfg) (memoryCache st)) as Hp.
  assert (Hn : Z.min T (Z.of_nat (length (sortByKey (evictionKey cfg) (memoryCache st)))) = T).
  { rewrite (Permutation_length Hp). fold len. lia. }
  unfold evictOldEntries. fold len. fold T. rewrite Hn. simpl.
  split; [lia|]. split; [|split; reflexivity].
  rewrite Nat2Z.id. apply deleteAll_prefix_perm; [|exact Hnd].
  rewrite firstn_skipn. symmetry; exact Hp.
Qed.

End CacheSpecLemmas.

(** X8. [get], [set], [delete], [cleanup] and [loadFromDisk] keep
    [stats.totalSize] and [stats.entryCount] equal to the sum of the
    entry sizes and the number of entries, when they were before. *)
Theorem cache_ops_keep_stats_consistent {V : Type} (gh : V -> string) (cs : V -> Z)
    (cfg : CacheConfig) (now : Z) (k : string) (v : V) (o : SetOptions)
    (file : option (list (string * CacheEntry))) (st : CacheState)
    (Hc : statsConsistent st) :
  statsConsistent (snd (cache_set gh cs cfg now k v o st))
  /\ statsConsistent (snd (cache_get cfg now k st))
  /\ statsConsistent (cache_delete k st)
  /\ statsConsistent (snd (cache_cleanup now st))
  /\ statsConsistent (loadFromDisk now file st).
Proof.
  split; [|split; [|split; [|split]]].
  - unfold cache_set. destruct (enabled cfg); simpl; [|exact Hc].
    destruct (map_get k (memoryCache st)) as [e|] eqn:Hg;
      [destruct (String.eqb (hash e) (gh v) && negb (forceUpdate o))|];
      try apply updateStats_consistent.
    apply (withCache_set_consistent _ _ e); [exact Hc|exact Hg|reflexivity].
  - unfold cache_get. destruct (enabled cfg); simpl; [|exact Hc].
    destruct (map_get k (memoryCache st)) as [e|] eqn:Hg; [|exact Hc].
    destruct (isExpired now e); simpl.
    + apply recordMiss_consistent, cache_delete_consistent, Hc.
    + apply recordHit_consistent, (withCache_set_consistent _ _ e); [exact Hc|exact Hg|reflexivity].
  - apply cache_delete_consistent, Hc.
  - apply (cache_cleanup_spec now st), Hc.
  - destruct file; [apply updateStats_consistent|exact Hc].
Qed.

Lemma cache_ops_keep_stats_consistent_witness :
  statsConsistent emptyCache /\
  (statsConsistent (snd (cache_set strHash strSize defaultCacheConfig 0 "k" "v" noOptions emptyCache))
   /\ statsConsistent (snd (cache_get defaultCacheConfig 0 "k" emptyCache))
   /\ statsConsistent (cache_delete "k" emptyCache)
   /\ statsConsistent (snd (cache_cleanup 0 emptyCache))
   /\ statsConsistent (loadFromDisk 0 None emptyCache)).
Proof.
  split; [split; reflexivity|].
  apply (cache_ops_keep_stats_consistent strHash strSize). split; reflexivity.
Defined.

(** X9. With the cache enabled, a [set(k, v, options)] that stores a new
    entry (no entry for [k], an entry with another hash, or
    [forceUpdate]) returns true, and a [get(k)] at any time up to the
    entry's expiry ([options.ttl || defaultTTL] seconds later) returns
    [v]. *)
Theorem cache_set_then_get {V : Type} (gh : V -> string) (cs : V -> Z)
    (cfg : CacheConfig) (now now' : Z) (k : string) (v : V) (o : SetOptions)
    (st : CacheState)
    (Hon : enabled cfg = true)
    (Hnew : forall e, map_get k (memoryCache st) = Some e ->
                      hash e <> gh v \/ forceUpdate o = true)
    (Hlive : now' <= now + (match opt_ttl o with
                            | Some t => if t =? 0 then defaultTTL cfg else t
                            | None => defaultTTL cfg end) * 1000) :
  fst (cache_set gh cs cfg now k v o st) = true
  /\ fst (cache_get cfg now' k (snd (cache_set gh cs cfg now k v o st))) = Some v.
Proof.
  assert (Hset : exists st1, cache_set gh cs cfg now k v o st
     = (true, updateStats (withCache st1 (map_set k
          (mkEntry k v (gh v) now now 1
             (match opt_ttl o with Some t => if t =? 0 then defaultTTL cfg else t
                                 | None => defaultTTL cfg end)
             (cs v) (cs v)
             (match opt_filePath o with Some p => p | None => "" end)
             "1.0.0" (opt_tags o)) (memoryCache st1))))).
  { unfold cache_set. rewrite Hon. simpl.
    destruct (map_get k (memoryCache st)) as [e|] eqn:Hg.
    - destruct (String.eqb (hash e) (gh v) && negb (forceUpdate o)) eqn:Hh.
      + exfalso. apply andb_true_iff in Hh as [Hh Hf]. apply String.eqb_eq in Hh.
        destruct (Hnew e eq_refl) as [H|H]; [contradiction|rewrite H in Hf; discriminate].
      + eexists; reflexivity.
    - eexists; reflexivity. }
  destruct Hset as [st1 ->]. split; [reflexivity|].
  unfold cache_get. rewrite Hon. simpl. rewrite map_get_set_eq.
  unfold isExpired; simpl.
  rewrite Z.gtb_ltb. destruct (_ <? now') eqn:Hlt; [|reflexivity].
  apply Z.ltb_lt in Hlt. lia.
Qed.

Lemma cache_set_then_get_witness :
  enabled defaultCacheConfig = true /\
  (forall e, map_get "k" (memoryCache emptyCache) = Some e ->
             hash e <> strHash "v" \/ forceUpdate noOptions = true) /\
  5000 <= 0 + (match opt_ttl noOptions with
               | Some t => if t =? 0 then defaultTTL defaultCacheConfig else t
               | None => defaultTTL defaultCacheConfig end) * 1000 /\
  (fst (cache_set strHash strSize defaultCacheConfig 0 "k" "v" noOptions emptyCache) = true
   /\ fst (cache_get defaultCacheConfig 5000 "k"
             (snd (cache_set strHash strSize defaultCacheConfig 0 "k" "v" noOptions emptyCache)))
      = Some "v").
Proof.
  assert (Hn : forall e, map_get "k" (memoryCache emptyCache) = Some e ->
                 hash e <> strHash "v" \/ forceUpdate noOptions = true)
    by (intros e H; discriminate).
  split; [reflexivity|split; [exact Hn|split; [vm_compute; discriminate|]]].
  apply cache_set_then_get; [reflexivity|exact Hn|vm_compute; discriminate].
Defined.

(** X10. When [k] holds an entry that has already expired and [set(k, v)]
    is called with a value of the same hash and no [forceUpdate], [set]
    returns true without renewing the entry's expiry; a [get(k)] at the
    same time then returns [null] and removes [k]. *)
Theorem cache_set_same_hash_keeps_expiry {V : Type} (gh : V -> string) (cs : V -> Z)
    (cfg : CacheConfig) (now : Z) (k : string) (v : V) (o : SetOptions)
    (st : CacheState) (e : CacheEntry)
    (Hon : enabled cfg = true) (Hf : forceUpdate o = false)
    (He : map_get k (memoryCache st) = Some e) (Hh : hash e = gh v)
    (Hexp : isExpired now e = true) :
  fst (cache_set gh cs cfg now k v o st) = true
  /\ fst (cache_get cfg now k (snd (cache_set gh cs cfg now k v o st))) = None
  /\ map_get k (memoryCache (snd (cache_get cfg now k (snd (cache_set gh cs cfg now k v o st)))))
     = None.
Proof.
  rewrite (cache_set_short_circuit gh cs cfg now k v o st e Hon Hf He Hh). simpl.
  split; [reflexivity|].
  unfold cache_get. rewrite Hon. simpl. rewrite map_get_set_eq.
  assert (Ht : isExpired now (touch now e) = true) by exact Hexp.
  rewrite Ht. simpl. split; [reflexivity|].
  apply cache_delete_get.
Qed.

Lemma cache_set_same_hash_keeps_expiry_witness :
  let st := snd (cache_set strHash strSize defaultCacheConfig 0 "k" "v" noOptions emptyCache) in
  let e := mkEntry "k" "v" "v" 0 0 1 86400 3 3 "" "1.0.0" [] in
  (enabled defaultCacheConfig = true /\ forceUpdate noOptions = false
   /\ map_get "k" (memoryCache st) = Some e /\ hash e = strHash "v"
   /\ isExpired 90000000 e = true) /\
  (fst (cache_set strHash strSize defaultCacheConfig 90000000 "k" "v" noOptions st) = true
   /\ fst (cache_get defaultCacheConfig 90000000 "k"
             (snd (cache_set strHash strSize defaultCacheConfig 90000000 "k" "v" noOptions st)))
      = None
   /\ map_get "k" (memoryCache (snd (cache_get defaultCacheConfig 90000000 "k"
         (snd (cache_set strHash strSize defaultCacheConfig 90000000 "k" "v" noOptions st)))))
      = None).
Proof.
  intros st e.
  split; [repeat split; vm_compute; reflexivity|].
  apply (cache_set_same_hash_keeps_expiry strHash strSize defaultCacheConfig 90000000
           "k" "v" noOptions st e); vm_compute; reflexivity.
Defined.

(** X11. With the cache enabled, a [get(k)] right after [delete(k)]
    returns [null] and counts one miss, whether or not [k] was present. *)
Theorem cache_delete_then_get {V : Type} (cfg : CacheConfig) (now : Z) (k : string)
    (st : CacheState (V := V)) (Hon : enabled cfg = true) :
  cache_get cfg now k (cache_delete k st) = (None, recordMiss (cache_delete k st)).
Proof.
  unfold cache_get. rewrite Hon, cache_delete_get. reflexivity.
Qed.

Lemma cache_delete_then_get_witness :
  enabled defaultCacheConfig = true /\
  cache_get defaultCacheConfig 0 "k"
    (cache_delete "k" (snd (cache_set strHash strSize defaultCacheConfig 0 "k" "v" noOptions emptyCache)))
  = (None, recordMiss (cache_delete "k"
      (snd (cache_set strHash strSize defaultCacheConfig 0 "k" "v" noOptions emptyCache)))).
Proof.
  split; [reflexivity|]. apply cache_delete_then_get. reflexivity.
Defined.

(** X12. For a cache with distinct keys, [cleanup()] keeps exactly the
    entries that are not expired, in their order, and returns the number
    of expired entries. *)
Theorem cache_cleanup_removes_expired {V : Type} (now : Z) (st : CacheState (V := V))
    (Hnd : NoDup (map fst (memoryCache st))) :
  memoryCache (snd (cache_cleanup now st))
    = filter (fun p => negb (isExpired now (snd p))) (memoryCache st)
  /\ fst (cache_cleanup now st)
     = Z.of_nat (length (filter (fun p => isExpired now (snd p)) (memoryCache st))).
Proof.
  destruct (cache_cleanup_spec now st) as [H1 [H2 _]].
  rewrite H1, cleanupLoop_self by exact Hnd. split; [reflexivity|exact H2].
Qed.

Lemma cache_cleanup_removes_expired_witness :
  let st := snd (cache_set strHash strSize defaultCacheConfig 0 "b" "w" noOptions
               (snd (cache_set strHash strSize defaultCacheConfig 0 "a" "v"
                       (mkSetOptions (Some 1) None [] false) emptyCache))) in
  NoDup (map fst (memoryCache st)) /\
  (memoryCache (snd (cache_cleanup 5000 st))
     = filter (fun p => negb (isExpired 5000 (snd p))) (memoryCache st)
   /\ fst (cache_cleanup 5000 st)
      = Z.of_nat (length (filter (fun p => isExpired 5000 (snd p)) (memoryCache st)))).
Proof.
  intros st.
  assert (Hnd : NoDup (map fst (memoryCache st))).
  { vm_compute. constructor; [intros [H|[]]; discriminate|constructor; [intros []|constructor]]. }
  split; [exact Hnd|]. apply cache_cleanup_removes_expired, Hnd.
Defined.

(** X13. Saving the entries with [saveToDisk] and loading them with
    [loadFromDisk] into an empty cache (as [initialize] does) restores
    the entries not expired at load time, in their order, and sets the
    size statistics from them. *)
Theorem save_then_load_restores_live_entries {V : Type} (now : Z)
    (st0 st : CacheState (V := V))
    (Hnd : NoDup (map fst (memoryCache st0))) (Hempty : memoryCache st = []) :
  memoryCache (loadFromDisk now (Some (saveToDisk st0)) st)
    = filter (fun p => negb (isExpired now (snd p))) (memoryCache st0)
  /\ statsConsistent (loadFromDisk now (Some (saveToDisk st0)) st).
Proof.
  split; [|apply updateStats_consistent].
  unfold loadFromDisk, saveToDisk. simpl. rewrite Hempty.
  rewrite load_fold_app; [reflexivity|exact Hnd|intros k _ []].
Qed.

Lemma save_then_load_restores_live_entries_witness :
  let st0 := snd (cache_set strHash strSize defaultCacheConfig 0 "b" "w" noOptions
               (snd (cache_set strHash strSize defaultCacheConfig 0 "a" "v"
                       (mkSetOptions (Some 1) None [] false) emptyCache))) in
  (NoDup (map fst (memoryCache st0)) /\ memoryCache emptyCache = []) /\
  (memoryCache (loadFromDisk 5000 (Some (saveToDisk st0)) emptyCache)
     = filter (fun p => negb (isExpired 5000 (snd p))) (memoryCache st0)
   /\ statsConsistent (loadFromDisk 5000 (Some (saveToDisk st0)) emptyCache)).
Proof.
  intros st0.
  assert (Hnd : NoDup (map fst (memoryCache st0))).
  { vm_compute. constructor; [intros [H|[]]; discriminate|constructor; [intros []|constructor]]. }
  split; [split; [exact Hnd|reflexivity]|].
  apply save_then_load_restores_live_entries; [exact Hnd|reflexivity].
Defined.

(** X14. For a cache with distinct keys and [0 <= ratio <= 1],
    [evictOldEntries(ratio)] returns [n = floor(size * ratio)] and
    leaves exactly the entries after the first [n] of the eviction order
    of [compareEntriesForEviction]; it leaves [stats.totalSize] and
    [stats.entryCount] as they were. *)
Theorem evictOldEntries_removes_policy_prefix {V : Type} (cfg : CacheConfig) (ratio : Q)
    (st : CacheState (V := V))
    (Hnd : NoDup (map fst (memoryCache st))) (Hr : (0 <= ratio <= 1)%Q) :
  fst (evictOldEntries cfg ratio st)
    = Qfloor (inject_Z (Z.of_nat (length (memoryCache st))) * ratio)
  /\ Permutation (memoryCache (snd (evictOldEntries cfg ratio st)))
       (skipn (Z.to_nat (fst (evictOldEntries cfg ratio st)))
          (sortByKey (evictionKey cfg) (memoryCache st)))
  /\ totalSize (snd (evictOldEntries cfg ratio st)) = totalSize st
  /\ entryCount (snd (evictOldEntries cfg ratio st)) = entryCount st.
Proof.
  exact (evictOldEntries_spec cfg ratio st Hnd Hr).
Qed.

Lemma evictOldEntries_removes_policy_prefix_witness :
  let st := snd (cache_set strHash strSize defaultCacheConfig 0 "b" "w" noOptions
               (snd (cache_set strHash strSize defaultCacheConfig 0 "a" "v" noOptions emptyCache))) in
  (NoDup (map fst (memoryCache st)) /\ (0 <= 1 # 2 <= 1)%Q) /\
  (fst (evictOldEntries defaultCacheConfig (1 # 2) st)
     = Qfloor (inject_Z (Z.of_nat (length (memoryCache st))) * (1 # 2))
   /\ Permutation (memoryCache (snd (evictOldEntries defaultCacheConfig (1 # 2) st)))
        (skipn (Z.to_nat (fst (evictOldEntries defaultCacheConfig (1 # 2) st)))
           (sortByKey (evictionKey defaultCacheConfig) (memoryCache st)))
   /\ totalSize (snd (evictOldEntries defaultCacheConfig (1 # 2) st)) = totalSize st
   /\ entryCount (snd (evictOldEntries defaultCacheConfig (1 # 2) st)) = entryCount st).
Proof.
  intros st.
  assert (Hnd : NoDup (map fst (memoryCache st))).
  { vm_compute. constructor; [intros [H|[]]; discriminate|constructor; [intros []|constructor]]. }
  assert (Hr : (0 <= 1 # 2 <= 1)%Q) by (split; vm_compute; discriminate).
  split; [split; [exact Hnd|exact Hr]|].
  apply evictOldEntries_removes_policy_prefix; [exact Hnd|exact Hr].
Defined.

(** X15. For a cache with distinct keys and consistent statistics, let
    [live] be its entries not expired at [now]. If their sizes sum to at
    most the byte budget, [optimize()] leaves exactly [live] with
    consistent statistics. Otherwise it also drops the first
    [floor(|live| * 0.2)] entries of the eviction order, while
    [stats.totalSize] and [stats.entryCount] still describe all of [live]. *)
Theorem cache_optimize_effect {V : Type} (cfg : CacheConfig) (now : Z) (st : CacheState (V := V))
    (Hnd : NoDup (map fst (memoryCache st))) (Hc : statsConsistent st) :
  (sumSizes (filter (fun p => negb (isExpired now (snd p))) (memoryCache st)) <= maxSizeBytes cfg ->
     memoryCache (cache_optimize cfg now st)
       = filter (fun p => negb (isExpired now (snd p))) (memoryCache st)
     /\ statsConsistent (cache_optimize cfg now st))
  /\ (maxSizeBytes cfg < sumSizes (filter (fun p => negb (isExpired now (snd p))) (memoryCache st)) ->
     Permutation (memoryCache (cache_optimize cfg now st))
       (skipn (Z.to_nat (Qfloor (inject_Z (Z.of_nat (length
                 (filter (fun p => negb (isExpired now (snd p))) (memoryCache st)))) * (1 # 5))))
          (sortByKey (evictionKey cfg) (filter (fun p => negb (isExpired now (snd p))) (memoryCache st))))
     /\ totalSize (cache_optimize cfg now st)
        = sumSizes (filter (fun p => negb (isExpired now (snd p))) (memoryCache st))
     /\ entryCount (cache_optimize cfg now st)
        = Z.of_nat (length (filter (fun p => negb (isExpired now (snd p))) (memoryCache st)))).
Proof.
  set (live := filter (fun p => negb (isExpired now (snd p))) (memoryCache st)).
  destruct (cache_cleanup_spec now st) as [Hm [_ Hcons]].
  set (st1 := snd (cache_cleanup now st)) in *.
  assert (Hm1 : memoryCache st1 = live) by (rewrite Hm; apply cleanupLoop_self, Hnd).
  assert (Hc1 : statsConsistent st1) by (apply Hcons, Hc).
  destruct Hc1 as [Ht1 He1]. rewrite Hm1 in Ht1, He1.
  unfold cache_optimize. fold st1.
  split.
  - intros Hle. assert (Hg : (totalSize st1 >? maxSizeBytes cfg) = false)
      by (rewrite Z.gtb_ltb; apply Z.ltb_ge; lia).
    rewrite Hg. split; [exact Hm1|split; rewrite Hm1; assumption].
  - intros Hgt. assert (Hg : (totalSize st1 >? maxSizeBytes cfg) = true)
      by (rewrite Z.gtb_ltb; apply Z.ltb_lt; lia).
    rewrite Hg.
    assert (Hnd1 : NoDup (map fst (memoryCache st1)))
      by (rewrite Hm1; apply NoDup_map_filter, Hnd).
    assert (Hr : (0 <= 1 # 5 <= 1)%Q) by (split; vm_compute; discriminate).
    destruct (evictOldEntries_spec cfg (1 # 5) st1 Hnd1 Hr) as [Hn [Hp [Hts Hec]]].
    rewrite Hm1 in Hn, Hp. rewrite Hn in Hp.
    split; [exact Hp|]. split; [rewrite Hts; exact Ht1|rewrite Hec; exact He1].
Qed.

Lemma cache_optimize_effect_witness :
  let st := snd (cache_set strHash strSize tinyCacheConfig 0 "b" "w" noOptions
               (snd (cache_set strHash strSize defaultCacheConfig 0 "a" "v" noOptions emptyCache))) in
  (NoDup (map fst (memoryCache st)) /\ statsConsistent st) /\
  ((sumSizes (filter (fun p => negb (isExpired 0 (snd p))) (memoryCache st))
      <= maxSizeBytes tinyCacheConfig ->
     memoryCache (cache_optimize tinyCacheConfig 0 st)
       = filter (fun p => negb (isExpired 0 (snd p))) (memoryCache st)
     /\ statsConsistent (cache_optimize tinyCacheConfig 0 st))
  /\ (maxSizeBytes tinyCacheConfig
        < sumSizes (filter (fun p => negb (isExpired 0 (snd p))) (memoryCache st)) ->
     Permutation (memoryCache (cache_optimize tinyCacheConfig 0 st))
       (skipn (Z.to_nat (Qfloor (inject_Z (Z.of_nat (length
                 (filter (fun p => negb (isExpired 0 (snd p))) (memoryCache st)))) * (1 # 5))))
          (sortByKey (evictionKey tinyCacheConfig)
             (filter (fun p => negb (isExpired 0 (snd p))) (memoryCache st))))
     /\ totalSize (cache_optimize tinyCacheConfig 0 st)
        = sumSizes (filter (fun p => negb (isExpired 0 (snd p))) (memoryCache st))
     /\ entryCount (cache_optimize tinyCacheConfig 0 st)
        = Z.of_nat (length (filter (fun p => negb (isExpired 0 (snd p))) (memoryCache st))))).
Proof.
  intros st.
  assert (Hnd : NoDup (map fst (memoryCache st))).
  { vm_compute. constructor; [intros [H|[]]; discriminate|constructor; [intros []|constructor]]. }
  assert (Hc : statsConsistent st) by (split; reflexivity).
  split; [split; [exact Hnd|exact Hc]|].
  apply cache_optimize_effect; [exact Hnd|exact Hc].
Defined.

(** ** Change analyzer *)

Lemma fold_max_ge (cs : list DiffChunk) (m0 : Z) :
  m0 <= fold_left (fun m c' => Z.max m (size c')) cs m0
  /\ (forall c, In c cs -> size c <= fold_left (fun m c' => Z.max m (size c')) cs m0)
  /\ (fold_left (fun m c' => Z.max m (size c')) cs m0 = m0
      \/ exists c, In c cs /\ size c = fold_left (fun m c' => Z.max m (size c')) cs m0).
Proof.
  revert m0; induction cs as [|c cs IH]; intros m0; simpl.
  - split; [lia|split; [intros _ []|left; reflexivity]].
  - destruct (IH (Z.max m0 (size c))) as [H1 [H2 H3]].
    split; [lia|split].
    + intros c' [<-|Hc']; [lia|apply H2, Hc'].
    + destruct H3 as [H3|[c' [Hc' H3]]].
      * destruct (Z.max_spec m0 (size c)) as [[_ Hm]|[_ Hm]]; rewrite Hm in *.
        -- right. exists c. split; [left; reflexivity|congruence].
        -- left. exact H3.
      * right. exists c'. split; [right; exact Hc'|exact H3].
Qed.

(** X16. [maxChunkSize] of the analysis is the largest [size] among the
    regions of the diff statistics (0 when there is none), and
    [chunkCount] is their number. *)
Theorem analyze_max_chunk_size (maxTok : Z) (path content : string) (ds : DiffStats) :
  chunkCount (analyzeFileChanges maxTok path content ds) = Z.of_nat (length (chunks_ds ds))
  /\ (chunks_ds ds = [] -> maxChunkSize (analyzeFileChanges maxTok path content ds) = 0)
  /\ (forall c, In c (chunks_ds ds) ->
        size c <= maxChunkSize (analyzeFileChanges maxTok path content ds))
  /\ (chunks_ds ds <> [] -> exists c, In c (chunks_ds ds)
        /\ size c = maxChunkSize (analyzeFileChanges maxTok path content ds)).
Proof.
  change (maxChunkSize (analyzeFileChanges maxTok path content ds)) with (maxChunk (chunks_ds ds)).
  split; [reflexivity|].
  unfold maxChunk. destruct (chunks_ds ds) as [|c cs].
  - split; [reflexivity|split; [intros _ []|intros H; contradiction]].
  - destruct (fold_max_ge cs (size c)) as [H1 [H2 H3]].
    split; [discriminate|split].
    + intros c' [<-|Hc']; [exact H1|apply H2, Hc'].
    + intros _. destruct H3 as [H3|[c' [Hc' H3]]].
      * exists c. split; [left; reflexivity|symmetry; exact H3].
      * exists c'. split; [right; exact Hc'|exact H3].
Qed.

(** ** Affected-block extraction, continued *)


(** X18. The blocks [extractAffectedBlocks] renders are pairwise
    distinct, none is empty, and each is the containing block
    [findContainingBlock] finds for some region of the diff: a block that
    holds several regions is shown once. *)
Theorem extractAffectedBlocks_distinct_blocks (diffOutput content : string)
    (blocks : list (list (Z * string)))
    (Hout : extractAffectedBlocks diffOutput content = AO_Blocks blocks) :
  NoDup blocks
  /\ forall b, In b blocks ->
       b <> [] /\ exists c, In c (parseDiffChunks diffOutput)
                   /\ b = findContainingBlock (JS.split_nl content) (startLine c) (endLine c).
Proof.
  unfold extractAffectedBlocks in Hout.
  set (chunks := parseDiffChunks diffOutput) in *.
  set (lines := JS.split_nl content) in *.
  set (P := fun b : list (Z * string) => b <> [] /\ exists c, In c chunks
              /\ b = findContainingBlock lines (startLine c) (endLine c)).
  assert (G : forall cs acc, incl cs chunks -> NoDup acc -> (forall b, In b acc -> P b) ->
            let r := fold_left (fun acc c =>
                       let blk := findContainingBlock lines (startLine c) (endLine c) in
                       match blk with [] => acc | _ => setAdd acc blk end) cs acc in
            NoDup r /\ forall b, In b r -> P b).
  { induction cs as [|c cs IH]; intros acc Hincl Hnd HP; simpl; [split; assumption|].
    apply IH; [intros x Hx; apply Hincl; right; exact Hx| |].
    - destruct (findContainingBlock lines (startLine c) (endLine c)) as [|x xs]; [exact Hnd|].
      unfold setAdd. destruct (existsb (block_eqb (x :: xs)) acc) eqn:E; [exact Hnd|].
      apply NoDup_app; [exact Hnd|repeat constructor; intros []|].
      intros y Hy [Hy'|[]]; subst y.
      assert (existsb (block_eqb (x :: xs)) acc = true)
        by (apply existsb_exists; exists (x :: xs); split; [exact Hy|apply block_eqb_eq; reflexivity]).
      congruence.
    - destruct (findContainingBlock lines (startLine c) (endLine c)) as [|x xs] eqn:Hf;
        [exact HP|].
      unfold setAdd. destruct (existsb (block_eqb (x :: xs)) acc); [exact HP|].
      intros b Hb. apply in_app_iff in Hb as [Hb|[Hb|[]]]; [apply HP, Hb|subst b].
      split; [discriminate|]. exists c. split; [apply Hincl; left; reflexivity|symmetry; exact Hf]. }
  destruct chunks as [|c0 cs0] eqn:Hch; [discriminate|].
  destruct (G (c0 :: cs0) [] (incl_refl _) (NoDup_nil _) (fun b H => match H with end))
    as [Hnd HP].
  destruct (fold_left _ (c0 :: cs0) []) as [|b0 bs0] eqn:Hr; [discriminate|].
  inversion Hout; subst blocks. split; [exact Hnd|exact HP].
Qed.

Lemma extractAffectedBlocks_distinct_blocks_witness :
  let d := JS.join_nl ["@@ -1,1 +2,1 @@"; "+x"; "@@ -2,1 +3,1 @@"; "+y"] in
  let c := JS.join_nl ["function f() {"; "  x;"; "  y;"; "}"] in
  extractAffectedBlocks d c
    = AO_Blocks [[(1, "function f() {"); (2, "  x;"); (3, "  y;"); (4, "}")]] /\
  (NoDup [[(1, "function f() {"); (2, "  x;"); (3, "  y;"); (4, "}")]]
   /\ forall b, In b [[(1, "function f() {"); (2, "  x;"); (3, "  y;"); (4, "}")]] ->
       b <> [] /\ exists ch, In ch (parseDiffChunks d)
                  /\ b = findContainingBlock (JS.split_nl c) (startLine ch) (endLine ch)).
Proof.
  intros d c.
  assert (H : extractAffectedBlocks d c
              = AO_Blocks [[(1, "function f() {"); (2, "  x;"); (3, "  y;"); (4, "}")]])
    by (vm_compute; reflexivity).
  split; [exact H|]. exact (extractAffectedBlocks_distinct_blocks d c _ H).
Defined.

(** ** File header *)

Lemma headerScan_spec (ls : list string) :
  forall i he, he <= i ->
  (headerScan ls i he = he \/ i < headerScan ls i he)
  /\ he <= headerScan ls i he <= i + Z.of_nat (length ls)
  /\ (he < headerScan ls i he ->
        exists l, nth_error ls (Z.to_nat (headerScan ls i he - 1 - i)) = Some l
                  /\ headerOk l = true)
  /\ (forall j l, (j < Z.to_nat (headerScan ls i he - i))%nat -> nth_error ls j = Some l ->
        mainCodeLine (JS.trim l) = true -> headerOk l = true)
  /\ (forall j l, (Z.to_nat (headerScan ls i he - i) <= j)%nat -> nth_error ls j = Some l ->
        headerOk l = true ->
        exists j' l', (Z.to_nat (headerScan ls i he - i) <= j' < j)%nat
                      /\ nth_error ls j' = Some l'
                      /\ mainCodeLine (JS.trim l') = true /\ headerOk l' = false).
Proof.
  induction ls as [|l ls IH]; intros i he Hhe; simpl.
  - split; [left; reflexivity|split; [lia|split; [lia|split]]].
    + intros j l Hj. lia.
    + intros [|j] l _ H; discriminate.
  - destruct (skippableLine (JS.trim l)) eqn:Hs;
      [|destruct (isHeaderContent (JS.trim l)) eqn:Hh;
        [|destruct (mainCodeLine (JS.trim l)) eqn:Hm]].
    1, 2:
      assert (Hok : headerOk l = true) by (unfold headerOk; rewrite ?Hs, ?Hh; reflexivity);
      destruct (IH (i + 1) (i + 1) ltac:(lia)) as [H0 [H1 [H2 [H3 H4]]]];
      set (r := headerScan ls (i + 1) (i + 1)) in *;
      split; [right; lia|split; [lia|split; [|split]]];
      [ intros _; destruct (Z.eq_dec r (i + 1)) as [Hr|Hr];
        [ exists l; rewrite Hr; replace (Z.to_nat (i + 1 - 1 - i)) with O by lia;
          split; [reflexivity|exact Hok]
        | destruct (H2 ltac:(lia)) as [l' [Hl' Hok']]; exists l';
          replace (Z.to_nat (r - 1 - i)) with (S (Z.to_nat (r - 1 - (i + 1)))) by lia;
          split; [exact Hl'|exact Hok'] ]
      | intros [|j] l' Hj Hl' Hm';
        [ simpl in Hl'; inversion Hl'; subst; exact Hok
        | apply (H3 j); [lia|exact Hl'|exact Hm'] ]
      | intros [|j] l' Hj Hl' Hok'; [lia|];
        destruct (H4 j l' ltac:(lia) Hl' Hok') as [j' [l'' [Hj' [Hl'' [Hm'' Hok'']]]]];
        exists (S j'), l''; split; [lia|split; [exact Hl''|split; assumption]] ].
    + assert (Hnok : headerOk l = false) by (unfold headerOk; rewrite Hs, Hh; reflexivity).
      split; [left; reflexivity|split; [lia|split; [lia|split]]].
      * intros j l' Hj. lia.
      * intros [|j] l' _ Hl' Hok'.
        -- simpl in Hl'. inversion Hl'; subst. congruence.
        -- exists O, l. split; [lia|]. split; [reflexivity|]. split; assumption.
    + assert (Hnok : headerOk l = false) by (unfold headerOk; rewrite Hs, Hh; reflexivity).
      destruct (IH (i + 1) he ltac:(lia)) as [H0 [H1 [H2 [H3 H4]]]].
      set (r := headerScan ls (i + 1) he) in *.
      split; [destruct H0; [left|right]; lia|split; [lia|split; [|split]]].
      * intros Hlt. destruct H0 as [H0|H0]; [lia|].
        destruct (H2 Hlt) as [l' [Hl' Hok']]. exists l'.
        replace (Z.to_nat (r - 1 - i)) with (S (Z.to_nat (r - 1 - (i + 1)))) by lia.
        split; [exact Hl'|exact Hok'].
      * intros [|j] l' Hj Hl' Hm'.
        -- simpl in Hl'. inversion Hl'; subst. congruence.
        -- apply (H3 j); [lia|exact Hl'|exact Hm'].
      * intros [|j] l' Hj Hl' Hok'.
        -- simpl in Hl'. inversion Hl'; subst. congruence.
        -- destruct (H4 j l' ltac:(lia) Hl' Hok') as [j' [l'' [Hj' [Hl'' [Hm'' Hok'']]]]].
           exists (S j'), l''. split; [lia|split; [exact Hl''|split; assumption]].
Qed.

(** X19. [findHeaderEnd] returns [h] with [0 <= h <= min(lines.length,
    30)]. When [h > 0], line [h] (1-based) is, once trimmed, blank, a
    comment or header content (one of the [importantPatterns]). No line
    before it is a line of main code (containing [function], [class] or
    [const]) that is neither. Every such header line at an index [j]
    with [h <= j < 30] is preceded, at an index in [[h, j)], by a
    main-code line that is not a header line. These conditions fix [h]
    uniquely. *)
Theorem findHeaderEnd_bounds (lines : list string) :
  0 <= findHeaderEnd lines <= Z.min (Z.of_nat (length lines)) 30
  /\ (0 < findHeaderEnd lines ->
        exists l, nth_error lines (Z.to_nat (findHeaderEnd lines - 1)) = Some l
                  /\ headerOk l = true)
  /\ (forall j l, (j < Z.to_nat (findHeaderEnd lines))%nat -> nth_error lines j = Some l ->
        mainCodeLine (JS.trim l) = true -> headerOk l = true)
  /\ (forall j l, (Z.to_nat (findHeaderEnd lines) <= j < 30)%nat -> nth_error lines j = Some l ->
        headerOk l = true ->
        exists j' l', (Z.to_nat (findHeaderEnd lines) <= j' < j)%nat
                      /\ nth_error lines j' = Some l'
                      /\ mainCodeLine (JS.trim l') = true /\ headerOk l' = false).
Proof.
  unfold findHeaderEnd.
  destruct (headerScan_spec (firstn 30 lines) 0 0 ltac:(lia)) as [_ [H1 [H2 [H3 H4]]]].
  set (h := headerScan (firstn 30 lines) 0 0) in *.
  rewrite length_firstn in H1.
  split; [lia|split; [|split]].
  - intros Hpos. destruct (H2 Hpos) as [l [Hl Hok]]. exists l.
    rewrite nth_error_firstn in Hl. replace (h - 1 - 0) with (h - 1) in Hl by lia.
    destruct (Nat.ltb _ _); [|discriminate]. split; [exact Hl|exact Hok].
  - intros j l Hj Hl Hm. apply (H3 j); [lia| |exact Hm].
    rewrite nth_error_firstn. replace (Nat.ltb j 30) with true; [exact Hl|].
    symmetry. apply Nat.ltb_lt. lia.
  - intros j l Hj Hl Hok.
    destruct (H4 j l) as [j' [l' [Hj' [Hl' [Hm' Hok']]]]].
    + replace (h - 0) with h by lia. lia.
    + rewrite nth_error_firstn. replace (Nat.ltb j 30) with true; [exact Hl|].
      symmetry. apply Nat.ltb_lt. lia.
    + exact Hok.
    + exists j', l'. replace (h - 0) with h in Hj' by lia. split; [exact Hj'|].
      rewrite nth_error_firstn in Hl'. destruct (Nat.ltb j' 30); [|discriminate].
      split; [exact Hl'|split; assumption].
Qed.

(** ** Analysis cache *)

Lemma jsMapGet_set_same {A : Type} (k : string) (v : A) (m : list (string * A)) :
  jsMapGet k (jsMapSet k v m) = Some v.
Proof.
  induction m as [|[k' v'] m IH]; simpl; [rewrite String.eqb_refl; reflexivity|].
  destruct (String.eqb k k') eqn:E; simpl; rewrite ?String.eqb_refl, ?E; [reflexivity|exact IH].
Qed.

Lemma jsMapGet_set_other {A : Type} (k k' : string) (v : A) (m : list (string * A)) :
  k' <> k -> jsMapGet k' (jsMapSet k v m) = jsMapGet k' m.
Proof.
  intros Hne. induction m as [|[k0 v0] m IH]; simpl.
  - apply String.eqb_neq in Hne. rewrite Hne. reflexivity.
  - destruct (String.eqb k k0) eqn:E; simpl.
    + apply String.eqb_eq in E; subst k0. apply String.eqb_neq in Hne. rewrite Hne. reflexivity.
    + destruct (String.eqb k' k0); [reflexivity|exact IH].
Qed.

(** X20. With caching on, once [analyzeFileChanges] has run for a cache
    key, a second call with the same key returns the first call's
    analysis and leaves the cache as it was, whatever the file content
    and diff statistics are at the second call; a call stores under its
    own key only, the analyses cached under other keys are untouched. *)
Theorem cachedAnalyze_second_call_returns_first (maxTok : Z)
    (cache : list (string * ChangeAnalysis)) (key path1 content1 path2 content2 : string)
    (ds1 ds2 : DiffStats) :
  let r := cachedAnalyzeFileChanges true maxTok cache key path1 content1 ds1 in
  cachedAnalyzeFileChanges true maxTok (snd r) key path2 content2 ds2 = r
  /\ (forall k', k' <> key -> jsMapGet k' (snd r) = jsMapGet k' cache).
Proof.
  unfold cachedAnalyzeFileChanges. destruct (jsMapGet key cache) eqn:E; simpl.
  - rewrite E. split; [reflexivity|intros; reflexivity].
  - rewrite jsMapGet_set_same. split; [reflexivity|].
    intros k' Hk. apply jsMapGet_set_other. exact Hk.
Qed.

(** ** Dependency analyzer *)

Lemma fold_left_inv {A B : Type} (P : B -> Prop) (f : B -> A -> B) (l : list A) (b : B) :
  P b -> (forall x b, In x l -> P b -> P (f b x)) -> P (fold_left f l b).
Proof.
  revert b. induction l as [|x l IH]; intros b Hb Hstep; simpl; [exact Hb|].
  apply IH; [apply Hstep; [left; reflexivity|exact Hb]|].
  intros y b' Hy Hb'. apply Hstep; [right; exact Hy|exact Hb'].
Qed.

Lemma fold_left_ext_pw {A B : Type} (f g : B -> A -> B) (l : list A) (b : B) :
  (forall b x, f b x = g b x) -> fold_left f l b = fold_left g l b.
Proof.
  revert b. induction l as [|x l IH]; intros b H; simpl; [reflexivity|].
  rewrite H. apply IH. exact H.
Qed.

Lemma existsb_eqb_false (x : string) (l : list string) :
  existsb (String.eqb x) l = false -> ~ In x l.
Proof.
  intros H Hin. assert (Ht : existsb (String.eqb x) l = true).
  { apply existsb_exists. exists x. split; [exact Hin|apply String.eqb_refl]. }
  congruence.
Qed.

Lemma existsb_eqb_true (x : string) (l : list string) :
  existsb (String.eqb x) l = true -> In x l.
Proof.
  intros H. apply existsb_exists in H as [y [Hy Hxy]].
  apply String.eqb_eq in Hxy. subst y. exact Hy.
Qed.

Section TraverseLemmas.

Variable next : string -> list string.
Variable maxDepth : Z.

(** The recursion depth [maxDepth + 2] of the model is enough: more fuel
    gives the same result. *)
Lemma traverse_fuel (f f' : nat) :
  forall cur depth st,
  (Z.to_nat (maxDepth - depth + 2) <= f)%nat -> (Z.to_nat (maxDepth - depth + 2) <= f')%nat ->
  traverse next maxDepth f cur depth st = traverse next maxDepth f' cur depth st.
Proof.
  revert f'. induction f as [|f IH]; intros f' cur depth st Hf Hf'.
  - destruct f' as [|f']; [reflexivity|]. simpl.
    replace (depth >? maxDepth) with true by (symmetry; apply Z.gtb_lt; lia). reflexivity.
  - destruct f' as [|f'].
    + simpl. replace (depth >? maxDepth) with true by (symmetry; apply Z.gtb_lt; lia).
      reflexivity.
    + simpl. destruct ((depth >? maxDepth) || existsb (String.eqb cur) (fst st)) eqn:Hc;
        [reflexivity|].
      apply orb_false_iff in Hc as [Hd _]. rewrite Z.gtb_ltb, Z.ltb_ge in Hd.
      apply fold_left_ext_pw. intros b x.
      destruct (existsb (String.eqb x) (fst b)); [reflexivity|].
      apply IH; lia.
Qed.

Lemma traverse_visited (f : nat) :
  forall cur depth st, incl (fst st) (fst (traverse next maxDepth f cur depth st)).
Proof.
  induction f as [|f IH]; intros cur depth st; simpl; [apply incl_refl|].
  destruct ((depth >? maxDepth) || existsb (String.eqb cur) (fst st)); [apply incl_refl|].
  apply (fold_left_inv (fun b => incl (fst st) (fst b))).
  - simpl. apply incl_tl, incl_refl.
  - intros x b _ Hb. destruct (existsb (String.eqb x) (fst b)); [exact Hb|].
    apply (incl_tran Hb). apply (IH x (depth + 1) (fst b, app (snd b) [x])).
Qed.

(** Every name [traverse] adds to [result] was not visited before the
    call, differs from the start of the call, and is reached from it
    within the remaining depth. *)
Lemma traverse_sound (f : nat) :
  forall cur depth st x,
  In x (snd (traverse next maxDepth f cur depth st)) ->
  In x (snd st)
  \/ (~ In x (fst st) /\ x <> cur /\ depReach next (Z.to_nat (maxDepth - depth + 1)) cur x).
Proof.
  induction f as [|f IH]; intros cur depth st x; simpl; [intros H; left; exact H|].
  destruct ((depth >? maxDepth) || existsb (String.eqb cur) (fst st)) eqn:Hc;
    [intros H; left; exact H|].
  apply orb_false_iff in Hc as [Hd _]. rewrite Z.gtb_ltb, Z.ltb_ge in Hd.
  replace (Z.to_nat (maxDepth - depth + 1))
    with (S (Z.to_nat (maxDepth - (depth + 1) + 1))) by lia.
  set (m := Z.to_nat (maxDepth - (depth + 1) + 1)).
  revert x.
  apply (fold_left_inv (fun b => incl (cur :: fst st) (fst b) /\
           forall x, In x (snd b) -> In x (snd st)
             \/ (~ In x (fst st) /\ x <> cur /\ depReach next (S m) cur x))).
  - simpl. split; [apply incl_refl|]. intros x Hx; left; exact Hx.
  - intros dep b Hdep [Hincl Hb].
    destruct (existsb (String.eqb dep) (fst b)) eqn:Hv; [split; assumption|].
    apply existsb_eqb_false in Hv.
    split.
    + apply (incl_tran Hincl). apply (traverse_visited f dep (depth + 1) (fst b, app (snd b) [dep])).
    + intros x Hx. destruct (IH dep (depth + 1) (fst b, app (snd b) [dep]) x Hx)
        as [Hin|[Hnv [Hne Hr]]]; simpl in *.
      * apply in_app_or in Hin as [Hin|[Hin|[]]]; [exact (Hb x Hin)|subst x].
        right. split; [intros H; apply Hv, Hincl; right; exact H|].
        split; [intros H; subst; apply Hv, Hincl; left; reflexivity|].
        apply depReach_step. exact Hdep.
      * right. split; [intros H; apply Hnv, Hincl; right; exact H|].
        split; [intros H; subst; apply Hnv, Hincl; left; reflexivity|].
        apply (depReach_trans next m cur dep x Hdep Hr).
Qed.

Lemma traverse_result_grows (f : nat) :
  forall cur depth st, incl (snd st) (snd (traverse next maxDepth f cur depth st)).
Proof.
  induction f as [|f IH]; intros cur depth st; simpl; [apply incl_refl|].
  destruct ((depth >? maxDepth) || existsb (String.eqb cur) (fst st)); [apply incl_refl|].
  apply (fold_left_inv (fun b => incl (snd st) (snd b))); [apply incl_refl|].
  intros x b _ Hb. destruct (existsb (String.eqb x) (fst b)); [exact Hb|].
  intros y Hy. apply (IH x (depth + 1) (fst b, app (snd b) [x])). simpl.
  apply in_or_app; left; apply Hb, Hy.
Qed.

(** Every visited name other than [start] has been added to [result]. *)
Lemma traverse_visited_recorded (start : string) (f : nat) :
  forall cur depth st,
  (forall y, In y (fst st) -> y = start \/ In y (snd st)) -> (cur = start \/ In cur (snd st)) ->
  forall y, In y (fst (traverse next maxDepth f cur depth st))
            -> y = start \/ In y (snd (traverse next maxDepth f cur depth st)).
Proof.
  induction f as [|f IH]; intros cur depth st HI Hcur; simpl; [exact HI|].
  destruct ((depth >? maxDepth) || existsb (String.eqb cur) (fst st)); [exact HI|].
  apply (fold_left_inv (fun b => forall y, In y (fst b) -> y = start \/ In y (snd b))).
  - simpl. intros y [<-|Hy]; [exact Hcur|exact (HI y Hy)].
  - intros x b _ Hb. destruct (existsb (String.eqb x) (fst b)); [exact Hb|].
    apply IH.
    + simpl. intros y Hy. destruct (Hb y Hy) as [H|H]; [left; exact H|].
      right. apply in_or_app; left; exact H.
    + right. simpl. apply in_or_app; right; left; reflexivity.
Qed.

Lemma traverse_fold_covers (f : nat) (d : Z) (start : string) (l : list string) :
  forall b, (forall y, In y (fst b) -> y = start \/ In y (snd b)) -> In start (fst b) ->
  forall y, In y l -> y <> start ->
  In y (snd (fold_left (fun st dep =>
                          if existsb (String.eqb dep) (fst st) then st
                          else traverse next maxDepth f dep d (fst st, app (snd st) [dep]))
               l b)).
Proof.
  induction l as [|x l IH]; intros b HI Hs y Hy Hne; [destruct Hy|]. simpl.
  set (b' := if existsb (String.eqb x) (fst b) then b
             else traverse next maxDepth f x d (fst b, app (snd b) [x])).
  assert (HI' : forall y, In y (fst b') -> y = start \/ In y (snd b')).
  { unfold b'. destruct (existsb (String.eqb x) (fst b)); [exact HI|].
    apply traverse_visited_recorded.
    - simpl. intros z Hz. destruct (HI z Hz) as [H|H]; [left; exact H|].
      right. apply in_or_app; left; exact H.
    - right. simpl. apply in_or_app; right; left; reflexivity. }
  assert (Hs' : In start (fst b')).
  { unfold b'. destruct (existsb (String.eqb x) (fst b)); [exact Hs|].
    apply (traverse_visited f x d (fst b, app (snd b) [x])). exact Hs. }
  destruct Hy as [<-|Hy]; [|exact (IH b' HI' Hs' y Hy Hne)].
  assert (Hx : In x (snd b')).
  { unfold b'. destruct (existsb (String.eqb x) (fst b)) eqn:E.
    - apply existsb_eqb_true in E. destruct (HI x E) as [H|H]; [congruence|exact H].
    - apply (traverse_result_grows f x d (fst b, app (snd b) [x])). simpl.
      apply in_or_app; right; left; reflexivity. }
  clearbody b'. clear IH. revert b' HI' Hs' Hx. induction l as [|z l IHl]; intros b' HI' Hs' Hx;
    simpl; [exact Hx|].
  apply IHl.
  - destruct (existsb (String.eqb z) (fst b')); [exact HI'|].
    apply traverse_visited_recorded.
    + simpl. intros w Hw. destruct (HI' w Hw) as [H|H]; [left; exact H|].
      right. apply in_or_app; left; exact H.
    + right. simpl. apply in_or_app; right; left; reflexivity.
  - destruct (existsb (String.eqb z) (fst b')); [exact Hs'|].
    apply (traverse_visited f z d (fst b', app (snd b') [z])). exact Hs'.
  - destruct (existsb (String.eqb z) (fst b')); [exact Hx|].
    apply (traverse_result_grows f z d (fst b', app (snd b') [z])). simpl.
    apply in_or_app; left; exact Hx.
Qed.

End TraverseLemmas.

Lemma traverse_from_start (next : string -> list string) (maxDepth : Z) (start x : string) :
  In x (snd (traverse next maxDepth (Z.to_nat (maxDepth + 2)) start 0 ([], []))) ->
  x <> start /\ depReach next (Z.to_nat (maxDepth + 1)) start x.
Proof.
  intros H. apply traverse_sound in H as [[]|[_ [Hne Hr]]].
  rewrite Z.sub_0_r in Hr. split; [exact Hne|exact Hr].
Qed.

Lemma traverse_covers_direct (next : string -> list string) (maxDepth : Z) (start y : string) :
  0 <= maxDepth -> In y (next start) -> y <> start ->
  In y (snd (traverse next maxDepth (Z.to_nat (maxDepth + 2)) start 0 ([], []))).
Proof.
  intros Hd Hy Hne. destruct (Z.to_nat (maxDepth + 2)) as [|f] eqn:E; [lia|].
  cbn [traverse]. replace (0 >? maxDepth) with false by (symmetry; rewrite Z.gtb_ltb; apply Z.ltb_ge; lia).
  simpl. apply (traverse_fold_covers next maxDepth f (0 + 1) start); simpl.
  - intros z [<-|[]]. left; reflexivity.
  - left; reflexivity.
  - exact Hy.
  - exact Hne.
Qed.

(** X21. Every file [getTransitiveDependencies(filePath, maxDepth)]
    returns is reached from the resolved [filePath] along at most
    [maxDepth + 1] direct-dependency edges of the dependency cache, and
    is never the resolved [filePath] itself. Conversely, when
    [maxDepth >= 0], every direct dependency of the resolved [filePath]
    other than itself is returned. *)
Theorem getTransitiveDependencies_reachable (resolve : string -> string)
    (cache : list (string * FileDependency)) (filePath : string) (maxDepth : Z) :
  (forall x, In x (getTransitiveDependencies resolve cache filePath maxDepth) ->
     x <> resolve filePath
     /\ depReach (getDirectDependencies resolve cache) (Z.to_nat (maxDepth + 1))
          (resolve filePath) x)
  /\ (0 <= maxDepth ->
      forall y, In y (getDirectDependencies resolve cache (resolve filePath)) ->
      y <> resolve filePath ->
      In y (getTransitiveDependencies resolve cache filePath maxDepth)).
Proof.
  split.
  - intros x Hx. exact (traverse_from_start _ maxDepth (resolve filePath) x Hx).
  - intros Hd y Hy Hne. exact (traverse_covers_direct _ maxDepth (resolve filePath) y Hd Hy Hne).
Qed.

Lemma uniqStrings_aux (l acc : list string) :
  NoDup acc ->
  NoDup (fold_left (fun acc x => if existsb (String.eqb x) acc then acc else app acc [x]) l acc)
  /\ (forall y, In y (fold_left (fun acc x => if existsb (String.eqb x) acc then acc
                                              else app acc [x]) l acc)
                <-> In y acc \/ In y l).
Proof.
  revert acc. induction l as [|x l IH]; intros acc Hnd; simpl.
  - split; [exact Hnd|]. intros y; tauto.
  - destruct (existsb (String.eqb x) acc) eqn:Hx.
    + apply existsb_eqb_true in Hx. destruct (IH acc Hnd) as [H1 H2].
      split; [exact H1|]. intros y. rewrite H2. split; [tauto|].
      intros [H|[H|H]]; [tauto| |tauto]. subst y. left; exact Hx.
    + apply existsb_eqb_false in Hx.
      assert (Hnd' : NoDup (app acc [x])).
      { apply (Permutation_NoDup (l := x :: acc)); [apply Permutation_cons_append|].
        constructor; assumption. }
      destruct (IH _ Hnd') as [H1 H2]. split; [exact H1|].
      intros y. rewrite H2, in_app_iff. simpl. tauto.
Qed.

(** X22. When [path.resolve] is idempotent, the [related] list of
    [getRelatedFiles(filePath, maxDepth)] has no duplicates, never holds
    the resolved [filePath], and holds exactly the files of its
    [dependencies] and [dependents] lists. *)
Theorem getRelatedFiles_related (resolve : string -> string)
    (Hidem : forall s, resolve (resolve s) = resolve s)
    (cache : list (string * FileDependency)) (filePath : string) (maxDepth : Z) :
  let r := getRelatedFiles resolve cache filePath maxDepth in
  NoDup (rf_related r)
  /\ ~ In (resolve filePath) (rf_related r)
  /\ (forall x, In x (rf_related r) <-> In x (rf_dependencies r) \/ In x (rf_dependents r)).
Proof.
  unfold getRelatedFiles, uniqStrings; simpl.
  destruct (uniqStrings_aux
              (app (getTransitiveDependencies resolve cache (resolve filePath) maxDepth)
                   (getTransitiveDependents resolve cache (resolve filePath) maxDepth)) []
              (NoDup_nil _)) as [H1 H2].
  split; [exact H1|]. split.
  - intros Hin. apply H2 in Hin as [[]|Hin]. apply in_app_or in Hin as [Hin|Hin];
      unfold getTransitiveDependencies, getTransitiveDependents in Hin; rewrite ?Hidem in Hin;
      apply traverse_from_start in Hin as [Hne _]; exact (Hne eq_refl).
  - intros x. rewrite H2, in_app_iff. simpl. tauto.
Qed.

Lemma getRelatedFiles_related_witness :
  NoDup (rf_related (getRelatedFiles (fun s => s)
           [("a", mkFileDependency "a" ["b"] ["c"]); ("b", mkFileDependency "b" ["c"] ["a"]);
            ("c", mkFileDependency "c" [] ["b"; "a"])] "a" 3))
  /\ rf_related (getRelatedFiles (fun s => s)
           [("a", mkFileDependency "a" ["b"] ["c"]); ("b", mkFileDependency "b" ["c"] ["a"]);
            ("c", mkFileDependency "c" [] ["b"; "a"])] "a" 3) = ["b"; "c"].
Proof.
  split; [|vm_compute; reflexivity].
  apply (getRelatedFiles_related (fun s => s) (fun s => eq_refl)).
Defined.

Lemma getTransitiveDependencies_reachable_witness :
  getTransitiveDependencies (fun s => s)
    [("a", mkFileDependency "a" ["b"; "d"] []); ("b", mkFileDependency "b" ["c"] ["a"])] "a" 3
  = ["b"; "c"; "d"]
  /\ ("c" <> "a"
      /\ depReach (getDirectDependencies (fun s => s)
           [("a", mkFileDependency "a" ["b"; "d"] []); ("b", mkFileDependency "b" ["c"] ["a"])])
           4 "a" "c")
  /\ In "d" (getTransitiveDependencies (fun s => s)
       [("a", mkFileDependency "a" ["b"; "d"] []); ("b", mkFileDependency "b" ["c"] ["a"])]
       "a" 3).
Proof.
  destruct (getTransitiveDependencies_reachable (fun s => s)
              [("a", mkFileDependency "a" ["b"; "d"] []); ("b", mkFileDependency "b" ["c"] ["a"])]
              "a" 3) as [H1 H2].
  split; [vm_compute; reflexivity|]. split.
  - apply H1. vm_compute. right; left; reflexivity.
  - apply H2; [lia|vm_compute; right; left; reflexivity|discriminate].
Defined.

Lemma depLookup_replace (q k : string) (d : FileDependency) (m : list (string * FileDependency)) :
  depLookup q (depReplace k d m)
  = if String.eqb q k then match depLookup k m with Some _ => Some d | None => None end
    else depLookup q m.
Proof.
  unfold depLookup. induction m as [|[k' d'] m IH]; simpl.
  - destruct (String.eqb q k); reflexivity.
  - destruct (String.eqb_spec k k') as [->|Hkk]; simpl.
    + destruct (String.eqb_spec q k'); reflexivity.
    + rewrite IH. destruct (String.eqb_spec q k) as [->|Hqk].
      * destruct (String.eqb_spec k k'); [contradiction|reflexivity].
      * reflexivity.
Qed.

Lemma withDependents_self (d : FileDependency) : withDependents d (fd_dependents d) = d.
Proof. destruct d; reflexivity. Qed.

Lemma pushDependent_lookup (p q dp : string) (fs : list (string * FileDependency)) :
  depLookup q (pushDependent p fs dp)
  = option_map (fun d => if String.eqb q dp then withDependents d (app (fd_dependents d) [p])
                         else d) (depLookup q fs).
Proof.
  unfold pushDependent. destruct (depLookup dp fs) as [d|] eqn:E.
  - rewrite depLookup_replace. destruct (String.eqb_spec q dp) as [->|Hne].
    + rewrite E. reflexivity.
    + destruct (depLookup q fs); reflexivity.
  - destruct (String.eqb_spec q dp) as [->|Hne]; [rewrite E; reflexivity|].
    destruct (depLookup q fs); reflexivity.
Qed.

Lemma pushDependents_lookup (p q : string) (ds : list string) :
  forall fs, depLookup q (fold_left (pushDependent p) ds fs)
  = option_map (fun d => withDependents d (app (fd_dependents d)
                            (repeat p (count_occ string_dec ds q)))) (depLookup q fs).
Proof.
  induction ds as [|dp ds IH]; intros fs; simpl.
  - destruct (depLookup q fs) as [d|]; simpl; [|reflexivity].
    rewrite app_nil_r, withDependents_self. reflexivity.
  - rewrite IH, pushDependent_lookup. destruct (depLookup q fs) as [d|]; simpl; [|reflexivity].
    destruct (string_dec dp q) as [->|Hne].
    + rewrite String.eqb_refl. simpl. rewrite <- app_assoc. reflexivity.
    + replace (String.eqb q dp) with false
        by (symmetry; apply String.eqb_neq; intros H; apply Hne; symmetry; exact H).
      reflexivity.
Qed.

Lemma buildLoop_lookup (q : string) (es : list (string * FileDependency)) :
  forall fs, depLookup q (fold_left (fun fs p => fold_left (pushDependent (fst p))
                                                   (fd_dependencies (snd p)) fs) es fs)
  = option_map (fun d => withDependents d (app (fd_dependents d)
       (flat_map (fun p => repeat (fst p) (count_occ string_dec (fd_dependencies (snd p)) q))
          es))) (depLookup q fs).
Proof.
  induction es as [|e es IH]; intros fs; simpl.
  - destruct (depLookup q fs) as [d|]; simpl; [|reflexivity].
    rewrite app_nil_r, withDependents_self. reflexivity.
  - rewrite IH, pushDependents_lookup. destruct (depLookup q fs) as [d|]; simpl; [|reflexivity].
    rewrite <- app_assoc. reflexivity.
Qed.

Lemma cleared_lookup (q : string) (files : list (string * FileDependency)) :
  depLookup q (map (fun p => (fst p, withDependents (snd p) [])) files)
  = option_map (fun d => withDependents d []) (depLookup q files).
Proof.
  unfold depLookup. induction files as [|[k d] files IH]; simpl; [reflexivity|].
  destruct (String.eqb q k); [reflexivity|exact IH].
Qed.

(** X23. After [buildDependencyRelationships], the entry of each file of
    the map keeps its path and its dependencies, and its [dependents]
    list names, in the map's order, every file whose [dependencies]
    mention it, once per mention; the [dependents] it had before are
    discarded. Files outside the map stay outside it. *)
Theorem buildDependencyRelationships_dependents (files : list (string * FileDependency))
    (q : string) :
  depLookup q (buildDependencyRelationships files)
  = option_map (fun d => withDependents d
       (flat_map (fun p => repeat (fst p) (count_occ string_dec (fd_dependencies (snd p)) q))
          files)) (depLookup q files).
Proof.
  unfold buildDependencyRelationships. rewrite buildLoop_lookup, cleared_lookup.
  destruct (depLookup q files); reflexivity.
Qed.
